(** * ExecutionService: the in-memory execution repository

    A shallow embedding of [src/repositories/in_memory.py]
    (class [InMemoryExecutionRepository]) and of the parts of
    [src/models/schemas.py] it uses, followed by the properties of the
    execution store and of its log pagination.

    Conventions of the embedding:
    - a Python [dict] with string keys is a [gmap string _];
    - a Python [int] is a [Z]; a [datetime] is a [Z] (a count of
      microseconds), compared the way datetimes are;
    - [Optional[T]] is [option T], the value [None] being [None];
    - every method runs under the repository lock, so a method is one
      atomic function of the repository state;
    - [datetime.utcnow()] is a reading of the wall clock: the methods that
      call it take that reading as their first argument [now]. *)

From stdpp Require Import gmap strings list fin_maps sorting.
From Stdlib Require Import ZArith Lia.

Open Scope Z_scope.

(** ** schemas.py *)

Inductive ExecutionEnvironment := LOCAL | AIRFLOW | SIMULATED.

Inductive ExecutionStatus := QUEUED | RUNNING | COMPLETED | FAILED | CANCELED | TIMEOUT.

#[global] Instance ExecutionStatus_eq_dec : EqDecision ExecutionStatus.
Proof. solve_decision. Defined.

(** [ExecutionStatus] is a [str] enum: [.value] is the member's string. *)
Definition status_value (st : ExecutionStatus) : string :=
  match st with
  | QUEUED => "queued"
  | RUNNING => "running"
  | COMPLETED => "completed"
  | FAILED => "failed"
  | CANCELED => "canceled"
  | TIMEOUT => "timeout"
  end.

(** The values a [Dict[str, Any]] payload carries. *)
#[warnings="-register-all"]
Inductive JsonValue :=
  | JNull
  | JBool (b : bool)
  | JInt (n : Z)
  | JStr (s : string)
  | JList (l : list JsonValue)
  | JDict (kvs : list (string * JsonValue)).

Record GitSource := {
  repository_url : string;
  branch : option string;
  commit_sha : option string;
  subpath : option string;
}.

(** [ExecutionDetail(ExecutionSummary)]: the fields of both classes. *)
Record ExecutionDetail := {
  execution_id : string;
  status : ExecutionStatus;
  environment : ExecutionEnvironment;
  created_at : Z;
  updated_at : Z;
  correlation_id : option string;
  git : GitSource;
  entrypoint : string;
  parameters : gmap string JsonValue;
  result : option (gmap string JsonValue);
  error : option string;
  logs_pointer : option string;
}.

(** ** Python list primitives *)

(** [len(l)] *)
Definition len {A} (l : list A) : Z := Z.of_nat (length l).

(** A slice bound as Python normalises it: a negative index counts from the
    end, and the outcome is clamped to [0 .. len]. *)
Definition slice_index (n i : Z) : Z :=
  if i <? 0 then Z.max (i + n) 0 else Z.min i n.

(** [l[a:b]] *)
Definition py_slice {A} (l : list A) (a b : Z) : list A :=
  let lo := slice_index (len l) a in
  let hi := slice_index (len l) b in
  take (Z.to_nat (hi - lo)) (drop (Z.to_nat lo) l).

(** [l[a:]] *)
Definition py_slice_from {A} (l : list A) (a : Z) : list A :=
  drop (Z.to_nat (slice_index (len l) a)) l.

(** [l.sort(key=lambda r: r.created_at, reverse=True)]: Python's sort is
    stable, also with [reverse=True], so the outcome is the one arrangement
    in descending key order that keeps equal keys in their original order.
    Insertion from the right computes it. *)
Fixpoint insert_desc (x : ExecutionDetail) (l : list ExecutionDetail) : list ExecutionDetail :=
  match l with
  | [] => [x]
  | y :: l' =>
      if created_at x <? created_at y then y :: insert_desc x l' else x :: l
  end.

Fixpoint sort_created_desc (l : list ExecutionDetail) : list ExecutionDetail :=
  match l with
  | [] => []
  | x :: l' => insert_desc x (sort_created_desc l')
  end.

(** ** in_memory.py *)

Record Repo := {
  _executions : gmap string ExecutionDetail;
  _logs : gmap string (list string);
  _created_order : list string;
}.

(** [InMemoryExecutionRepository.__init__] *)
Definition init : Repo :=
  {| _executions := ∅; _logs := ∅; _created_order := [] |}.

(** [dict.setdefault(k, v)], for its effect on the dict. *)
Definition setdefault {V} (k : string) (v : V) (m : gmap string V) : gmap string V :=
  match m !! k with
  | Some _ => m
  | None => <[k := v]> m
  end.

Definition create_execution (now : Z) (self : Repo)
    (execution_id : string) (git : GitSource) (entrypoint : string)
    (parameters : gmap string JsonValue) (environment : ExecutionEnvironment)
    (correlation_id : option string) : Repo * ExecutionDetail :=
  let detail :=
    {| execution_id := execution_id;
       status := QUEUED;
       environment := environment;
       created_at := now;
       updated_at := now;
       correlation_id := correlation_id;
       git := git;
       entrypoint := entrypoint;
       parameters := parameters;
       result := None;
       error := None;
       logs_pointer := Some ("mem:" +:+ execution_id) |} in
  ({| _executions := <[execution_id := detail]> (_executions self);
      _logs := setdefault execution_id [] (_logs self);
      _created_order := _created_order self ++ [execution_id] |},
   detail).

Definition get_execution (self : Repo) (execution_id : string) : option ExecutionDetail :=
  _executions self !! execution_id.

(** Attribute assignments on a record: [detail.status = v] and the like. *)
Definition set_status (d : ExecutionDetail) (v : ExecutionStatus) : ExecutionDetail :=
  {| execution_id := d.(execution_id); status := v; environment := d.(environment);
     created_at := d.(created_at); updated_at := d.(updated_at);
     correlation_id := d.(correlation_id); git := d.(git); entrypoint := d.(entrypoint);
     parameters := d.(parameters); result := d.(result); error := d.(error);
     logs_pointer := d.(logs_pointer) |}.

Definition set_result (d : ExecutionDetail) (v : gmap string JsonValue) : ExecutionDetail :=
  {| execution_id := d.(execution_id); status := d.(status); environment := d.(environment);
     created_at := d.(created_at); updated_at := d.(updated_at);
     correlation_id := d.(correlation_id); git := d.(git); entrypoint := d.(entrypoint);
     parameters := d.(parameters); result := Some v; error := d.(error);
     logs_pointer := d.(logs_pointer) |}.

Definition set_error (d : ExecutionDetail) (v : string) : ExecutionDetail :=
  {| execution_id := d.(execution_id); status := d.(status); environment := d.(environment);
     created_at := d.(created_at); updated_at := d.(updated_at);
     correlation_id := d.(correlation_id); git := d.(git); entrypoint := d.(entrypoint);
     parameters := d.(parameters); result := d.(result); error := Some v;
     logs_pointer := d.(logs_pointer) |}.

Definition set_updated_at (d : ExecutionDetail) (v : Z) : ExecutionDetail :=
  {| execution_id := d.(execution_id); status := d.(status); environment := d.(environment);
     created_at := d.(created_at); updated_at := v;
     correlation_id := d.(correlation_id); git := d.(git); entrypoint := d.(entrypoint);
     parameters := d.(parameters); result := d.(result); error := d.(error);
     logs_pointer := d.(logs_pointer) |}.

(** The record object is mutated in place: the record stored under the id
    afterwards is the one returned. *)
Definition update_status (now : Z) (self : Repo) (execution_id : string)
    (status : ExecutionStatus) (result : option (gmap string JsonValue))
    (error : option string) : Repo * option ExecutionDetail :=
  match _executions self !! execution_id with
  | None => (self, None)
  | Some detail =>
      let detail := set_status detail status in
      let detail := match result with Some r => set_result detail r | None => detail end in
      let detail := match error with Some e => set_error detail e | None => detail end in
      let detail := set_updated_at detail now in
      ({| _executions := <[execution_id := detail]> (_executions self);
          _logs := _logs self;
          _created_order := _created_order self |},
       Some detail)
  end.

Definition append_logs (self : Repo) (execution_id : string) (lines : list string) : Repo :=
  let logs1 :=
    match _logs self !! execution_id with
    | Some _ => _logs self
    | None => <[execution_id := []]> (_logs self)
    end in
  {| _executions := _executions self;
     _logs := <[execution_id := default [] (logs1 !! execution_id) ++ lines]> logs1;
     _created_order := _created_order self |}.

Definition is_terminal (st : ExecutionStatus) : bool :=
  match st with
  | COMPLETED | FAILED | CANCELED | TIMEOUT => true
  | QUEUED | RUNNING => false
  end.

Definition read_logs (self : Repo) (execution_id : string) (offset limit : Z)
    : list string * Z * bool :=
  let lines := default [] (_logs self !! execution_id) in
  let total := len lines in
  let end_ := Z.min total (offset + limit) in
  let slice_lines := py_slice lines offset end_ in
  let detail := _executions self !! execution_id in
  let terminal :=
    match detail with
    | Some d => is_terminal d.(status)
    | None => false
    end in
  let eof := terminal && (total <=? end_) in
  (slice_lines, end_, eof).

(** [r.status == st] *)
Definition status_is (st : ExecutionStatus) (r : ExecutionDetail) : bool :=
  bool_decide (r.(status) = st).

Definition list_executions (self : Repo) (limit : Z) (status : option ExecutionStatus)
    : list ExecutionDetail :=
  let ids := py_slice_from (_created_order self) (- limit) in
  let records := omap (λ i, _executions self !! i) ids in
  let records :=
    match status with
    | Some st => filter (λ r, status_is st r = true) records
    | None => records
    end in
  sort_created_desc records.

(** The body of the loop of [stats]: [key = d.status.value], and
    [totals[key] += 1] if [key in totals]. *)
Definition stats_step (totals : gmap string Z) (d : ExecutionDetail) : gmap string Z :=
  let key := status_value d.(status) in
  match totals !! key with
  | Some n => <[key := n + 1]> totals
  | None => totals
  end.

(** [for d in self._executions.values()] visits every record once; the
    loop body only increments one counter, so the order of the visit does not
    show in the outcome. *)
Definition stats (self : Repo) : gmap string Z :=
  let totals : gmap string Z :=
    <["timeout" := 0]> (<["canceled" := 0]> (<["failed" := 0]> (<["completed" := 0]>
    (<["running" := 0]> (<["queued" := 0]>
    (<["total" := Z.of_nat (size (_executions self))]> ∅)))))) in
  foldl stats_step totals (map_to_list (_executions self)).*2.

(** ** Histories of calls

    The mutating methods, as data, and the state a history of calls leaves
    behind. Each call comes with the clock reading its [datetime.utcnow()]
    gets ([append_logs] reads no clock). *)

Inductive Call :=
  | CreateExecution (execution_id : string) (git : GitSource) (entrypoint : string)
      (parameters : gmap string JsonValue) (environment : ExecutionEnvironment)
      (correlation_id : option string)
  | UpdateStatus (execution_id : string) (status : ExecutionStatus)
      (result : option (gmap string JsonValue)) (error : option string)
  | AppendLogs (execution_id : string) (lines : list string).

Definition call (now : Z) (c : Call) (self : Repo) : Repo :=
  match c with
  | CreateExecution i g e p env corr => (create_execution now self i g e p env corr).1
  | UpdateStatus i st res err => (update_status now self i st res err).1
  | AppendLogs i lines => append_logs self i lines
  end.

Fixpoint run (history : list (Z * Call)) (self : Repo) : Repo :=
  match history with
  | [] => self
  | (now, c) :: history' => run history' (call now c self)
  end.

(** The states the repository can be in: those a history of calls builds
    from the empty repository. *)
Definition reachable (s : Repo) : Prop := ∃ history, s = run history init.

(** The clock readings of a history never step back. *)
Definition clock_monotone (history : list (Z * Call)) : Prop :=
  StronglySorted Z.le history.*1.

(** ** Values used in the scenarios *)

Definition sample_git : GitSource :=
  {| repository_url := "https://example.com/repo.git";
     branch := Some "main"; commit_sha := None; subpath := Some "scripts" |}.

Definition sample_create (i : string) : Call :=
  CreateExecution i sample_git "run.py" ∅ SIMULATED None.

(** Scenario A of the repository test: one record with three log lines. *)
Definition scenario_a : Repo :=
  run [(1, sample_create "e1"); (2, AppendLogs "e1" ["line1"; "line2"; "line3"])] init.

Definition scenario_a_completed : Repo :=
  call 3 (UpdateStatus "e1" COMPLETED (Some {["ok" := JBool true]}) None) scenario_a.

Definition scenario_a_record : ExecutionDetail :=
  {| execution_id := "e1"; status := COMPLETED; environment := SIMULATED;
     created_at := 1; updated_at := 3; correlation_id := None;
     git := sample_git; entrypoint := "run.py"; parameters := ∅;
     result := Some {["ok" := JBool true]}; error := None;
     logs_pointer := Some "mem:e1" |}.

(** ** Notions used in the statements *)

(** The log buffer of an id: the lines appended under it so far. *)
Definition buffer_of (s : Repo) (id : string) : list string :=
  default [] (_logs s !! id).

(** The contract of [readLogs] in the words of the design document: NotFound
    (here [None]) for an id without a record, and otherwise the slice, the
    next offset and the eof flag. Kept apart from [read_logs] to compare the
    two. *)
Definition readLogs_documented (s : Repo) (id : string) (offset limit : Z)
    : option (list string * Z * bool) :=
  match _executions s !! id with
  | None => None
  | Some record =>
      let buffer := buffer_of s id in
      let end_ := Z.min (len buffer) (offset + limit) in
      Some (take (Z.to_nat (end_ - offset)) (drop (Z.to_nat offset) buffer),
            end_,
            is_terminal record.(status) && (len buffer <=? end_))
  end.

(** Lines appended under an id that was never created. *)
Definition orphan_logs : Repo := append_logs init "ghost" ["l1"; "l2"].

(** The record [create_execution] builds. *)
Definition fresh_record (now : Z) (id : string) (g : GitSource) (e : string)
    (p : gmap string JsonValue) (env : ExecutionEnvironment) (corr : option string)
    : ExecutionDetail :=
  {| execution_id := id; status := QUEUED; environment := env;
     created_at := now; updated_at := now; correlation_id := corr;
     git := g; entrypoint := e; parameters := p;
     result := None; error := None; logs_pointer := Some ("mem:" +:+ id) |}.

(** A record created, completed, and then created again under the same
    id. *)
Definition completed_e1 : Repo :=
  run [(1, CreateExecution "e1" sample_git "run.py" ∅ SIMULATED (Some "c1"));
       (2, UpdateStatus "e1" COMPLETED (Some {["ok" := JBool true]}) None)] init.

Definition recreated_e1 : Repo * ExecutionDetail :=
  create_execution 3 completed_e1 "e1" sample_git "other.py" ∅ LOCAL None.

(** The record [update_status] leaves under the id. *)
Definition updated_record (now : Z) (d : ExecutionDetail) (st : ExecutionStatus)
    (res : option (gmap string JsonValue)) (err : option string) : ExecutionDetail :=
  let d := set_status d st in
  let d := match res with Some r => set_result d r | None => d end in
  let d := match err with Some e => set_error d e | None => d end in
  set_updated_at d now.

(** What every reachable state satisfies: the ids with a record are the ids
    of the creation order, each of them has a log buffer, and a record is
    stored under its own id. *)
Record well_formed (s : Repo) : Prop := {
  wf_order : ∀ id, is_Some (_executions s !! id) ↔ id ∈ _created_order s;
  wf_buffer : ∀ id, is_Some (_executions s !! id) → is_Some (_logs s !! id);
  wf_key : ∀ id d, _executions s !! id = Some d → execution_id d = id;
}.

(** [a] may stand before [b] in a listing: [a] was not created earlier. *)
Definition newer_first (a b : ExecutionDetail) : Prop := created_at b ≤ created_at a.

(** The ids of the [create_execution] calls of a history, in call order. *)
Definition created_ids (history : list (Z * Call)) : list string :=
  omap (λ tc : Z * Call,
          match tc.2 with
          | CreateExecution i _ _ _ _ _ => Some i
          | _ => None
          end) history.

(** The records a listing selects from: those of the last [limit] ids of the
    creation order. *)
Definition tail_records (s : Repo) (limit : Z) : list ExecutionDetail :=
  omap (λ i, _executions s !! i)
       (drop (length (_created_order s) - Z.to_nat limit) (_created_order s)).

Definition with_status (st : option ExecutionStatus) (records : list ExecutionDetail)
    : list ExecutionDetail :=
  match st with
  | Some st => filter (λ r, status r = st) records
  | None => records
  end.

(** Three records, the first and the last completed. *)
Definition three_records : Repo :=
  run [(1, sample_create "e1"); (2, sample_create "e2"); (3, sample_create "e3");
       (4, UpdateStatus "e1" COMPLETED None None);
       (5, UpdateStatus "e3" COMPLETED None None)] init.

Definition completed_record (i : string) (created updated : Z) : ExecutionDetail :=
  {| execution_id := i; status := COMPLETED; environment := SIMULATED;
     created_at := created; updated_at := updated; correlation_id := None;
     git := sample_git; entrypoint := "run.py"; parameters := ∅;
     result := None; error := None; logs_pointer := Some ("mem:" +:+ i) |}.

(** Every record was updated no earlier than it was created, and no later
    than [bound]. *)
Definition timestamps_ordered (bound : Z) (s : Repo) : Prop :=
  ∀ id d, _executions s !! id = Some d → created_at d ≤ updated_at d ≤ bound.

(** The wall clock is set back between two calls. *)
Definition clock_steps_back : list (Z * Call) :=
  [(10, sample_create "e1"); (5, UpdateStatus "e1" RUNNING None None)].

Definition clock_steps_back_later : list (Z * Call) :=
  [(10, sample_create "e1"); (20, UpdateStatus "e1" RUNNING None None);
   (15, UpdateStatus "e1" COMPLETED None None)].

Definition clock_steady : list (Z * Call) :=
  [(10, sample_create "e1"); (20, UpdateStatus "e1" RUNNING None None);
   (20, UpdateStatus "e1" COMPLETED None None)].

(** The number of records of a map that are in a given status. *)
Definition count_status (st : ExecutionStatus) (m : gmap string ExecutionDetail) : Z :=
  Z.of_nat (length (filter (λ d, status d = st) (map_to_list m).*2)).

(** A table of counters: its total, its counter per status, and no other
    key. *)
Record tallies (totals : gmap string Z) (total : Z) (count : ExecutionStatus → Z) : Prop := {
  tallies_total : totals !! "total" = Some total;
  tallies_status : ∀ st, totals !! status_value st = Some (count st);
  tallies_keys : ∀ k, is_Some (totals !! k) → k = "total" ∨ ∃ st, k = status_value st;
}.

(** Scenario D of the design document: two queued records and a completed
    one. *)
Definition scenario_d : Repo :=
  run [(1, sample_create "e1"); (2, sample_create "e2"); (3, sample_create "e3");
       (4, UpdateStatus "e3" COMPLETED (Some {["ok" := JBool true]}) None)] init.

(** ** tests/conftest.py: the test double of the service

    [_FakeRepo] keeps its records in a plain [dict] and lists them in the
    order of the dict, so that dict is modelled with its insertion order: a
    list of items, in which a key that is assigned again keeps its place. *)

(** [d.get(k)] *)
Fixpoint dict_get {V} (k : string) (d : list (string * V)) : option V :=
  match d with
  | [] => None
  | (k', v) :: d' => if decide (k' = k) then Some v else dict_get k d'
  end.

(** [d[k] = v] *)
Fixpoint dict_set {V} (k : string) (v : V) (d : list (string * V)) : list (string * V) :=
  match d with
  | [] => [(k, v)]
  | (k', v') :: d' => if decide (k' = k) then (k, v) :: d' else (k', v') :: dict_set k v d'
  end.

(** [l[:b]] *)
Definition py_slice_to {A} (l : list A) (b : Z) : list A :=
  take (Z.to_nat (slice_index (len l) b)) l.

Module ExecutionRequest.
Record t := {
  git : GitSource;
  entrypoint : string;
  parameters : gmap string JsonValue;
  environment : ExecutionEnvironment;
  correlation_id : option string;
  timeout_seconds : option Z;
  notify : option (gmap string JsonValue);
}.
End ExecutionRequest.

Module LogsResponse.
Record t := {
  execution_id : string;
  lines : list string;
  next_offset : Z;
  eof : bool;
}.
End LogsResponse.

Module SubmitResponse.
Record t := {
  execution_id : string;
  status : ExecutionStatus;
}.
End SubmitResponse.

Module FakeRepo.
Record t := {
  executions : list (string * ExecutionDetail);
  logs : gmap string (list string);
}.

(** [_FakeRepo.__init__] *)
Definition init : t := {| executions := []; logs := ∅ |}.

(** [eid] is the fresh [uuid4]; [created] and [updated] are the two clock
    readings the constructor call takes. *)
Definition create (eid : string) (created updated : Z) (self : t) (req : ExecutionRequest.t)
    : t * ExecutionDetail :=
  let detail :=
    {| execution_id := eid;
       status := QUEUED;
       environment := req.(ExecutionRequest.environment);
       created_at := created;
       updated_at := updated;
       correlation_id := req.(ExecutionRequest.correlation_id);
       git := req.(ExecutionRequest.git);
       entrypoint := req.(ExecutionRequest.entrypoint);
       parameters := req.(ExecutionRequest.parameters);
       result := None;
       error := None;
       logs_pointer := Some ("mem:" +:+ eid) |} in
  ({| executions := dict_set eid detail self.(executions);
      logs := <[eid := []]> self.(logs) |},
   detail).

Definition get (self : t) (execution_id : string) : option ExecutionDetail :=
  dict_get execution_id self.(executions).

Definition update_status (now : Z) (self : t) (execution_id : string)
    (status : ExecutionStatus) (result : option (gmap string JsonValue))
    (error : option string) : t * option ExecutionDetail :=
  match dict_get execution_id self.(executions) with
  | None => (self, None)
  | Some d =>
      let d := set_status d status in
      let d := match result with Some r => set_result d r | None => d end in
      let d := match error with Some e => set_error d e | None => d end in
      let d := set_updated_at d now in
      ({| executions := dict_set execution_id d self.(executions);
          logs := self.(logs) |},
       Some d)
  end.

Definition append_logs (self : t) (execution_id : string) (lines : list string) : t :=
  let logs1 := setdefault execution_id [] self.(logs) in
  {| executions := self.(executions);
     logs := <[execution_id := default [] (logs1 !! execution_id) ++ lines]> logs1 |}.

Definition read_logs (self : t) (execution_id : string) (offset limit : Z)
    : list string * Z * bool :=
  let lines := default [] (self.(logs) !! execution_id) in
  let end_ := Z.min (len lines) (offset + limit) in
  let slice_ := py_slice lines offset end_ in
  let d := dict_get execution_id self.(executions) in
  let terminal :=
    match d with
    | Some d => is_terminal d.(status)
    | None => false
    end in
  let eof := terminal && (len lines <=? end_) in
  (slice_, end_, eof).

Definition stats (self : t) : gmap string Z :=
  let res : gmap string Z :=
    <["timeout" := 0]> (<["canceled" := 0]> (<["failed" := 0]> (<["completed" := 0]>
    (<["running" := 0]> (<["queued" := 0]>
    (<["total" := len self.(executions)]> ∅)))))) in
  foldl stats_step res self.(executions).*2.

Definition list (self : t) (limit : Z) (status : option ExecutionStatus)
    : list ExecutionDetail :=
  let arr := self.(executions).*2 in
  let arr :=
    match status with
    | Some st => filter (λ x, status_is st x = true) arr
    | None => arr
    end in
  let arr := sort_created_desc arr in
  py_slice_to arr limit.
End FakeRepo.

(** [FakeExecutionService], without its start time: the state of the
    service is its [_repo]. [uptime_seconds], a difference of float clock
    readings, is left out. *)
Module FakeExecutionService.
(** [eid] is the [uuid4] drawn by [create]; [t1 .. t4] are the clock readings
    of the calls, in order. *)
Definition submit (eid : string) (t1 t2 t3 t4 : Z) (self : FakeRepo.t)
    (payload : ExecutionRequest.t) : FakeRepo.t * SubmitResponse.t :=
  let '(repo, detail) := FakeRepo.create eid t1 t2 self payload in
  let repo := (FakeRepo.update_status t3 repo detail.(execution_id) RUNNING None None).1 in
  let repo :=
    FakeRepo.append_logs repo detail.(execution_id)
      ["Starting: " +:+ payload.(ExecutionRequest.entrypoint);
       "Executing step 1"; "Executing step 2"] in
  let repo := FakeRepo.append_logs repo detail.(execution_id) ["Finished successfully"] in
  let repo :=
    (FakeRepo.update_status t4 repo detail.(execution_id) COMPLETED
       (Some {["ok" := JBool true]}) None).1 in
  (repo, {| SubmitResponse.execution_id := detail.(execution_id);
            SubmitResponse.status := QUEUED |}).

Definition get (self : FakeRepo.t) (execution_id : string) : option ExecutionDetail :=
  FakeRepo.get self execution_id.

Definition logs (self : FakeRepo.t) (execution_id : string) (offset limit : Z)
    : option LogsResponse.t :=
  match FakeRepo.get self execution_id with
  | None => None
  | Some d =>
      let '(lines, next_offset, eof) := FakeRepo.read_logs self execution_id offset limit in
      Some {| LogsResponse.execution_id := execution_id;
              LogsResponse.lines := lines;
              LogsResponse.next_offset := next_offset;
              LogsResponse.eof := eof |}
  end.

Definition stats (self : FakeRepo.t) : gmap string Z := FakeRepo.stats self.

Definition list (self : FakeRepo.t) (limit : Z) (status : option ExecutionStatus)
    : list ExecutionDetail :=
  FakeRepo.list self limit status.
End FakeExecutionService.

(** The repository state that holds the records and buffers of a
    [_FakeRepo], for a creation order given besides. *)
Definition as_repo (f : FakeRepo.t) (order : list string) : Repo :=
  {| _executions := list_to_map f.(FakeRepo.executions);
     _logs := f.(FakeRepo.logs);
     _created_order := order |}.

Definition sample_request : ExecutionRequest.t :=
  {| ExecutionRequest.git := sample_git;
     ExecutionRequest.entrypoint := "scripts/run.py";
     ExecutionRequest.parameters := {["a" := JInt 1]};
     ExecutionRequest.environment := SIMULATED;
     ExecutionRequest.correlation_id := Some "corr-123";
     ExecutionRequest.timeout_seconds := None;
     ExecutionRequest.notify := None |}.

(** ** Notions used in the further properties *)

(** The call is a [create_execution] under [id]. *)
Definition creates (id : string) (c : Call) : Prop :=
  match c with
  | CreateExecution i _ _ _ _ _ => i = id
  | _ => False
  end.

(** The fields of a record that no method assigns once the record is
    built. *)
Definition same_identity (d d' : ExecutionDetail) : Prop :=
  execution_id d' = execution_id d
  ∧ environment d' = environment d
  ∧ git d' = git d
  ∧ entrypoint d' = entrypoint d
  ∧ parameters d' = parameters d
  ∧ correlation_id d' = correlation_id d
  ∧ created_at d' = created_at d
  ∧ logs_pointer d' = logs_pointer d.

(** [record is not None and record.status in {COMPLETED, FAILED, CANCELED,
    TIMEOUT}], for the record stored under an id. *)
Definition terminal_at (s : Repo) (id : string) : bool :=
  match _executions s !! id with
  | Some d => is_terminal d.(status)
  | None => false
  end.

(** [totals.get(key, 0)] *)
Definition stat (totals : gmap string Z) (key : string) : Z :=
  default 0 (totals !! key).

(** * Properties *)

(** ** The scenarios of the tests *)

Example scenario_a_read_pending :
  read_logs scenario_a "e1" 0 2 = (["line1"; "line2"], 2, false).
Proof. reflexivity. Qed.

Example scenario_a_get :
  get_execution scenario_a_completed "e1" = Some scenario_a_record.
Proof. reflexivity. Qed.

Example scenario_a_read_completed :
  read_logs scenario_a_completed "e1" 2 10 = (["line3"], 3, true).
Proof. reflexivity. Qed.

Example scenario_a_stats :
  stats scenario_a_completed !! "total" = Some 1
  ∧ stats scenario_a_completed !! "completed" = Some 1.
Proof. split; reflexivity. Qed.

(** ** Slices *)

Section slices.
Context {A : Type}.
Implicit Types l : list A.

(** A read window: for a start [o >= 0] and a width [k >= 0], the slice
  [l[o : min(len l, o + k)]] is the [k] items after the first [o]. *)
Lemma py_slice_window l (o k : Z) :
0 ≤ o → 0 ≤ k →
py_slice l o (Z.min (len l) (o + k)) = take (Z.to_nat k) (drop (Z.to_nat o) l).
Proof.
intros Ho Hk. unfold py_slice, slice_index, len.
set (n := length l).
assert ((o <? 0) = false) as -> by (apply Z.ltb_ge; lia).
assert ((Z.min (Z.of_nat n) (o + k) <? 0) = false) as -> by (apply Z.ltb_ge; lia).
destruct (Z_le_gt_dec o (Z.of_nat n)) as [Hin | Hout].
- rewrite (Z.min_l o) by lia.
  rewrite (Z.min_l (Z.min _ _)) by lia.
  destruct (Z_le_gt_dec (o + k) (Z.of_nat n)) as [Hfit | Hcut].
  + rewrite Z.min_r by lia. f_equal. lia.
  + rewrite Z.min_l by lia.
    rewrite !take_ge; [done | rewrite length_drop; lia | rewrite length_drop; lia].
- rewrite (Z.min_r o) by lia.
  rewrite !(drop_ge l) by (fold n; lia).
  by rewrite !take_nil.
Qed.

(** The same window, written with its end [min(len l, o + k)]. *)
Lemma take_window l (o k : Z) :
0 ≤ o → 0 ≤ k →
take (Z.to_nat (Z.min (len l) (o + k) - o)) (drop (Z.to_nat o) l)
= take (Z.to_nat k) (drop (Z.to_nat o) l).
Proof.
intros Ho Hk.
assert (Z.to_nat (Z.min (len l) (o + k) - o)
        = (Z.to_nat k `min` length (drop (Z.to_nat o) l))%nat) as ->.
{ rewrite length_drop. unfold len. lia. }
rewrite <- take_take. by rewrite (take_ge (drop _ _)).
Qed.

Lemma py_slice_from_last l (k : Z) :
  1 ≤ k → py_slice_from l (- k) = drop (length l - Z.to_nat k) l.
Proof.
  intros Hk. unfold py_slice_from, slice_index, len.
  assert ((- k <? 0) = true) as -> by (apply Z.ltb_lt; lia).
  f_equal. lia.
Qed.
End slices.

(** ** Reading logs *)

Lemma read_logs_lines s id (offset limit : Z) :
  0 ≤ offset → 0 ≤ limit →
  (read_logs s id offset limit).1.1
  = take (Z.to_nat limit) (drop (Z.to_nat offset) (buffer_of s id)).
Proof.
  intros Ho Hl. unfold read_logs, buffer_of. cbn [fst].
  by apply py_slice_window.
Qed.

(** C2. For an id that has a record, an offset [>= 0] and a limit [>= 1],
    [read_logs] returns the lines [buffer[offset:end]] with
    [end = min(len(buffer), offset + limit)] (item [i] of the result is item
    [offset + i] of the buffer, for [offset + i < end]), returns [end] as
    the next offset, and returns eof true exactly when the record's status is
    one of COMPLETED, FAILED, CANCELED, TIMEOUT and [end >= len(buffer)]; eof
    is false whenever the status is QUEUED or RUNNING. *)
Theorem read_logs_contract (s : Repo) (id : string) (d : ExecutionDetail) (offset limit : Z) :
  _executions s !! id = Some d →
  0 ≤ offset → 1 ≤ limit →
  let buffer := buffer_of s id in
  let end_ := Z.min (len buffer) (offset + limit) in
  let '(lines, next_offset, eof) := read_logs s id offset limit in
  lines = take (Z.to_nat (end_ - offset)) (drop (Z.to_nat offset) buffer)
  ∧ (∀ i : nat, lines !! i
       = if decide (offset + Z.of_nat i < end_) then buffer !! (Z.to_nat offset + i)%nat else None)
  ∧ next_offset = end_
  ∧ (eof = true ↔ d.(status) ∈ [COMPLETED; FAILED; CANCELED; TIMEOUT] ∧ len buffer ≤ end_)
  ∧ (d.(status) = QUEUED ∨ d.(status) = RUNNING → eof = false).
Proof.
  intros Hd Ho Hl. cbv zeta.
  pose proof (read_logs_lines s id offset limit Ho ltac:(lia)) as Hlines.
  unfold read_logs in *. rewrite Hd. cbn [fst] in Hlines.
  fold (buffer_of s id) in *.
  set (buffer := buffer_of s id) in *.
  set (end_ := Z.min (len buffer) (offset + limit)) in *.
  assert (Htake : take (Z.to_nat (end_ - offset)) (drop (Z.to_nat offset) buffer)
                  = take (Z.to_nat limit) (drop (Z.to_nat offset) buffer))
    by (apply take_window; lia).
  split; [by rewrite Hlines, Htake|].
  split.
  { intros i. rewrite Hlines, <- Htake, lookup_take, lookup_drop.
    destruct (decide (i < Z.to_nat (end_ - offset))%nat), (decide (offset + Z.of_nat i < end_));
      done || lia. }
  split; [done|].
  split.
  - rewrite andb_true_iff, Z.leb_le. rewrite !elem_of_cons, elem_of_nil.
    destruct (status d); cbn; intuition (congruence || lia).
  - intros [-> | ->]; done.
Qed.

Lemma read_logs_contract_witness :
  _executions scenario_a_completed !! "e1" = Some scenario_a_record
  ∧ 0 ≤ 2 ∧ 1 ≤ 10
  ∧ read_logs scenario_a_completed "e1" 2 10 = (["line3"], 3, true).
Proof.
  split; [reflexivity|]. split; [lia|]. split; [lia|].
  pose proof (read_logs_contract scenario_a_completed "e1" scenario_a_record 2 10
                eq_refl ltac:(lia) ltac:(lia)) as H.
  cbv zeta in H.
  destruct (read_logs scenario_a_completed "e1" 2 10) as [[lines next_offset] eof].
  destruct H as (-> & _ & -> & Heof & _).
  assert (eof = true) as ->; [|reflexivity].
  apply Heof. split; [left | vm_compute; discriminate].
Defined.

(** Where the id has a record, [read_logs] computes what the documented
    contract asks for. *)
Lemma read_logs_refines_documented s id d (offset limit : Z) :
  _executions s !! id = Some d →
  0 ≤ offset → 1 ≤ limit →
  readLogs_documented s id offset limit = Some (read_logs s id offset limit).
Proof.
  intros Hd Ho Hl.
  pose proof (read_logs_lines s id offset limit Ho ltac:(lia)) as Hlines.
  unfold readLogs_documented, read_logs in *. rewrite Hd. cbn [fst] in Hlines.
  fold (buffer_of s id) in *.
  by rewrite Hlines, take_window by lia.
Qed.

(** C3, as stated, fails: for an id without a record [read_logs] returns a
    triple, not NotFound, and it hands out the lines appended under that
    id. *)
Lemma read_logs_unknown_id_not_NotFound :
  _executions orphan_logs !! "ghost" = None
  ∧ readLogs_documented orphan_logs "ghost" 0 10 = None
  ∧ read_logs orphan_logs "ghost" 0 10 = (["l1"; "l2"], 2, false)
  ∧ read_logs init "missing" 0 10 = ([], 0, false).
Proof. repeat split. Qed.

(** C3, amended. For an id that has no record, an offset [>= 0] and a limit
    [>= 1], [read_logs] does not signal NotFound: it returns the slice
    [buffer[offset:end]] of the lines appended under that id (the empty
    buffer when there are none), [end = min(len(buffer), offset + limit)] as
    next offset, and eof false. *)
Theorem read_logs_unknown_id (s : Repo) (id : string) (offset limit : Z) :
  _executions s !! id = None →
  0 ≤ offset → 1 ≤ limit →
  let buffer := buffer_of s id in
  let end_ := Z.min (len buffer) (offset + limit) in
  read_logs s id offset limit
  = (take (Z.to_nat (end_ - offset)) (drop (Z.to_nat offset) buffer), end_, false)
  ∧ (_logs s !! id = None → read_logs s id offset limit = ([], 0, false)).
Proof.
  intros Hd Ho Hl. cbv zeta.
  pose proof (read_logs_lines s id offset limit Ho ltac:(lia)) as Hlines.
  unfold read_logs in *. rewrite Hd. cbn [fst] in Hlines.
  fold (buffer_of s id) in *.
  set (buffer := buffer_of s id) in *.
  split.
  - rewrite Hlines, take_window by lia. done.
  - intros Hnone. rewrite Hlines. subst buffer. unfold buffer_of. rewrite Hnone. cbn.
    rewrite drop_nil, take_nil. do 2 f_equal. unfold len. cbn. lia.
Qed.

Lemma read_logs_unknown_id_witness :
  _executions orphan_logs !! "ghost" = None
  ∧ 0 ≤ 1 ∧ 1 ≤ 10
  ∧ read_logs orphan_logs "ghost" 1 10 = (["l2"], 2, false).
Proof.
  split; [reflexivity|]. split; [lia|]. split; [lia|].
  exact (proj1 (read_logs_unknown_id orphan_logs "ghost" 1 10
                  eq_refl ltac:(lia) ltac:(lia))).
Defined.

(** C6. Pagination is associative: on one buffer, the lines read at
    [(o, l)] followed by the lines read at [(o + l, l')] are the lines read
    at [(o, l + l')], for [o >= 0] and [l, l' >= 1]. *)
Theorem read_logs_pagination_assoc (s : Repo) (id : string) (o l l' : Z) :
  0 ≤ o → 1 ≤ l → 1 ≤ l' →
  (read_logs s id o l).1.1 ++ (read_logs s id (o + l) l').1.1
  = (read_logs s id o (l + l')).1.1.
Proof.
  intros Ho Hl Hl'.
  rewrite !read_logs_lines by lia.
  rewrite !Z2Nat.inj_add by lia.
  rewrite <- (drop_drop (buffer_of s id)).
  apply take_take_drop.
Qed.

Lemma read_logs_pagination_assoc_witness :
  0 ≤ 1 ∧ 1 ≤ 1 ∧ 1 ≤ 5
  ∧ (read_logs scenario_a "e1" 1 1).1.1 ++ (read_logs scenario_a "e1" (1 + 1) 5).1.1
    = ["line2"; "line3"].
Proof.
  split; [lia|]. split; [lia|]. split; [lia|].
  rewrite (read_logs_pagination_assoc scenario_a "e1" 1 1 5); [reflexivity | lia..].
Defined.

(** ** Appending logs *)

Lemma append_logs_buffer s id lines :
  _logs (append_logs s id lines) !! id = Some (buffer_of s id ++ lines).
Proof.
  unfold append_logs, buffer_of. cbn [_logs].
  rewrite lookup_insert_eq.
  destruct (_logs s !! id) as [old|] eqn:Hold.
  - by rewrite Hold.
  - by rewrite lookup_insert_eq.
Qed.

Lemma append_logs_other s id lines id' :
  id' ≠ id → _logs (append_logs s id lines) !! id' = _logs s !! id'.
Proof.
  intros Hne. unfold append_logs. cbn [_logs].
  rewrite lookup_insert_ne by done.
  destruct (_logs s !! id); [done|]. by rewrite lookup_insert_ne.
Qed.

(** C4, as stated, fails: appending under an id without a record is not a
    no-op. The lines are stored in a buffer created for that id, and the
    repository state changes. *)
Lemma append_logs_unknown_id_not_dropped :
  _executions init !! "ghost" = None
  ∧ append_logs init "ghost" ["l1"; "l2"] ≠ init
  ∧ _logs init !! "ghost" = None
  ∧ _logs (append_logs init "ghost" ["l1"; "l2"]) !! "ghost" = Some ["l1"; "l2"].
Proof.
  split; [reflexivity|]. split; [|split; reflexivity].
  intros Heq. apply (f_equal (λ s, _logs s !! "ghost")) in Heq. discriminate Heq.
Qed.

(** C4, amended. For an id that has no record and any list of lines,
    [append_logs] is not an error and creates no record, but the lines are
    kept: the id's buffer, created empty when absent, is extended by the
    lines in order. Records, creation order and the buffers of other ids are
    unchanged, and a later [read_logs] on the id returns the stored lines. *)
Theorem append_logs_unknown_id (s : Repo) (id : string) (lines : list string) :
  _executions s !! id = None →
  let s' := append_logs s id lines in
  _executions s' = _executions s
  ∧ _created_order s' = _created_order s
  ∧ _logs s' !! id = Some (buffer_of s id ++ lines)
  ∧ (∀ id', id' ≠ id → _logs s' !! id' = _logs s !! id')
  ∧ (read_logs s' id 0 (len (buffer_of s id ++ lines) + 1)).1.1 = buffer_of s id ++ lines.
Proof.
  intros _. cbv zeta.
  split; [done|]. split; [done|].
  split; [apply append_logs_buffer|].
  split; [intros id' Hne; by apply append_logs_other|].
  rewrite read_logs_lines by (unfold len; lia).
  assert (buffer_of (append_logs s id lines) id = buffer_of s id ++ lines) as ->.
  { unfold buffer_of at 1. by rewrite append_logs_buffer. }
  rewrite drop_0. apply take_ge. unfold len. lia.
Qed.

Lemma append_logs_unknown_id_witness :
  _executions init !! "ghost" = None
  ∧ _logs (append_logs init "ghost" ["l1"; "l2"]) !! "ghost" = Some ([] ++ ["l1"; "l2"]).
Proof.
  split; [reflexivity|].
  exact (proj1 (proj2 (proj2 (append_logs_unknown_id init "ghost" ["l1"; "l2"] eq_refl)))).
Defined.

(** ** Creating a record *)

Lemma create_execution_returns now s id g e p env corr :
  (create_execution now s id g e p env corr).2 = fresh_record now id g e p env corr.
Proof. reflexivity. Qed.

Lemma create_execution_record now s id g e p env corr :
  _executions (create_execution now s id g e p env corr).1 !! id
  = Some (fresh_record now id g e p env corr).
Proof. cbn. apply lookup_insert_eq. Qed.

Lemma create_execution_other now s id g e p env corr id' :
  id' ≠ id →
  _executions (create_execution now s id g e p env corr).1 !! id' = _executions s !! id'.
Proof. intros Hne. cbn. by rewrite lookup_insert_ne. Qed.

Lemma create_execution_buffer now s id g e p env corr :
  buffer_of (create_execution now s id g e p env corr).1 id = buffer_of s id.
Proof.
  unfold buffer_of. cbn [create_execution fst _logs]. unfold setdefault.
  destruct (_logs s !! id) as [old|] eqn:Hold.
  - by rewrite Hold.
  - by rewrite lookup_insert_eq.
Qed.

Lemma create_execution_logs_other now s id g e p env corr id' :
  id' ≠ id →
  _logs (create_execution now s id g e p env corr).1 !! id' = _logs s !! id'.
Proof.
  intros Hne. cbn [create_execution fst _logs]. unfold setdefault.
  destruct (_logs s !! id); [done|]. by rewrite lookup_insert_ne.
Qed.

(** C1, as stated, fails: the second [create_execution] under an id does not
    fail, it returns a record, and the record stored under the id before is
    replaced by it. *)
Lemma create_execution_duplicate_replaces :
  (status <$> _executions completed_e1 !! "e1") = Some COMPLETED
  ∧ recreated_e1.2 = fresh_record 3 "e1" sample_git "other.py" ∅ LOCAL None
  ∧ _executions recreated_e1.1 !! "e1" ≠ _executions completed_e1 !! "e1"
  ∧ (status <$> _executions recreated_e1.1 !! "e1") = Some QUEUED
  ∧ (entrypoint <$> _executions completed_e1 !! "e1") = Some "run.py"
  ∧ (entrypoint <$> _executions recreated_e1.1 !! "e1") = Some "other.py".
Proof.
  split; [reflexivity|]. split; [reflexivity|].
  split; [|repeat split].
  intros Heq. apply (f_equal (fmap status)) in Heq. discriminate Heq.
Qed.

(** C1, amended. For every state and every id that already has a record, a
    second [create_execution] with that id does not fail (there is no
    DuplicateId error): it returns a fresh QUEUED record built from the new
    arguments, and that record replaces the one stored under the id. The
    lines of the id's log buffer and the records and buffers of all other
    ids are unchanged. *)
Theorem create_execution_duplicate (now : Z) (s : Repo) (id : string) (old : ExecutionDetail)
    (g : GitSource) (e : string) (p : gmap string JsonValue)
    (env : ExecutionEnvironment) (corr : option string) :
  _executions s !! id = Some old →
  let '(s', detail) := create_execution now s id g e p env corr in
  detail = fresh_record now id g e p env corr
  ∧ _executions s' !! id = Some detail
  ∧ buffer_of s' id = buffer_of s id
  ∧ (∀ id', id' ≠ id →
       _executions s' !! id' = _executions s !! id' ∧ _logs s' !! id' = _logs s !! id').
Proof.
  intros _.
  pose proof (create_execution_record now s id g e p env corr) as Hrec.
  pose proof (create_execution_buffer now s id g e p env corr) as Hbuf.
  pose proof (create_execution_other now s id g e p env corr) as Hother.
  pose proof (create_execution_logs_other now s id g e p env corr) as Hlogs.
  pose proof (create_execution_returns now s id g e p env corr) as Hret.
  destruct (create_execution now s id g e p env corr) as [s' detail].
  cbn [fst snd] in *. subst detail.
  split; [done|]. split; [done|]. split; [done|].
  intros id' Hne. split; auto.
Qed.

Lemma create_execution_duplicate_witness :
  (∃ old, _executions completed_e1 !! "e1" = Some old)
  ∧ _executions recreated_e1.1 !! "e1"
    = Some (fresh_record 3 "e1" sample_git "other.py" ∅ LOCAL None)
  ∧ buffer_of recreated_e1.1 "e1" = buffer_of completed_e1 "e1".
Proof.
  split; [eexists; reflexivity|].
  pose proof (create_execution_duplicate 3 completed_e1 "e1"
                (set_updated_at (set_result (set_status
                   (fresh_record 1 "e1" sample_git "run.py" ∅ SIMULATED (Some "c1"))
                   COMPLETED) {["ok" := JBool true]}) 2)
                sample_git "other.py" ∅ LOCAL None eq_refl) as H.
  fold recreated_e1 in H. destruct recreated_e1 as [s' detail].
  destruct H as (-> & H1 & H2 & _). split; assumption.
Defined.

(** ** Updating the status *)

Lemma update_status_found now s id d st res err :
  _executions s !! id = Some d →
  update_status now s id st res err
  = ({| _executions := <[id := updated_record now d st res err]> (_executions s);
        _logs := _logs s;
        _created_order := _created_order s |},
     Some (updated_record now d st res err)).
Proof. intros Hd. unfold update_status. by rewrite Hd. Qed.

Lemma update_status_missing now s id st res err :
  _executions s !! id = None → update_status now s id st res err = (s, None).
Proof. intros Hd. unfold update_status. by rewrite Hd. Qed.

Lemma updated_record_times now d st res err :
  created_at (updated_record now d st res err) = created_at d
  ∧ updated_at (updated_record now d st res err) = now.
Proof. by destruct res, err. Qed.

Lemma updated_record_id now d st res err :
  execution_id (updated_record now d st res err) = execution_id d.
Proof. by destruct res, err. Qed.

(** C8. For an id that has a record, [update_status] stores and returns a
    record whose status is the given one, whatever the status before (also
    from a terminal status back to QUEUED), whose result and error are the
    given ones where given and the prior ones where not, and whose
    [updated_at] is the clock reading. Every other field of the record, the
    log buffers, the creation order and the records of other ids are
    unchanged. *)
Theorem update_status_effect (now : Z) (s : Repo) (id : string) (d : ExecutionDetail)
    (st : ExecutionStatus) (res : option (gmap string JsonValue)) (err : option string) :
  _executions s !! id = Some d →
  let '(s', returned) := update_status now s id st res err in
  ∃ d',
    returned = Some d' ∧ _executions s' !! id = Some d'
    ∧ status d' = st
    ∧ result d' = match res with Some r => Some r | None => result d end
    ∧ error d' = match err with Some e => Some e | None => error d end
    ∧ updated_at d' = now
    ∧ execution_id d' = execution_id d
    ∧ environment d' = environment d
    ∧ git d' = git d
    ∧ entrypoint d' = entrypoint d
    ∧ parameters d' = parameters d
    ∧ correlation_id d' = correlation_id d
    ∧ created_at d' = created_at d
    ∧ logs_pointer d' = logs_pointer d
    ∧ _logs s' = _logs s
    ∧ _created_order s' = _created_order s
    ∧ (∀ id', id' ≠ id → _executions s' !! id' = _executions s !! id').
Proof.
  intros Hd. rewrite (update_status_found _ _ _ _ _ _ _ Hd).
  exists (updated_record now d st res err).
  split; [done|]. split; [apply lookup_insert_eq|].
  destruct res, err; cbn; repeat (split; [reflexivity|]);
    intros id' Hne; by rewrite lookup_insert_ne.
Qed.

(** A completed record is put back to QUEUED; its result stays. *)
Lemma update_status_effect_witness :
  _executions scenario_a_completed !! "e1" = Some scenario_a_record
  ∧ status scenario_a_record = COMPLETED
  ∧ ∃ d', (update_status 4 scenario_a_completed "e1" QUEUED None None).2 = Some d'
          ∧ status d' = QUEUED
          ∧ result d' = Some {["ok" := JBool true]}
          ∧ updated_at d' = 4.
Proof.
  split; [reflexivity|]. split; [reflexivity|].
  pose proof (update_status_effect 4 scenario_a_completed "e1" scenario_a_record
                QUEUED None None eq_refl) as H.
  destruct (update_status 4 scenario_a_completed "e1" QUEUED None None) as [s' returned].
  destruct H as (d' & Hret & _ & Hst & Hres & _ & Hup & _).
  exists d'. cbn [snd]. auto.
Defined.

(** ** Well-formed states *)

Lemma well_formed_init : well_formed init.
Proof.
  split.
  - intros id. cbn. rewrite lookup_empty, elem_of_nil. split; [by intros [? ?] | done].
  - intros id. cbn. rewrite lookup_empty. by intros [? ?].
  - intros id d. cbn. by rewrite lookup_empty.
Qed.

Lemma well_formed_call now c s : well_formed s → well_formed (call now c s).
Proof.
  intros [Horder Hbuffer Hkey].
  destruct c as [i g e p env corr | i st res err | i lines]; cbn [call].
  - split.
    + intros id. cbn [create_execution fst _executions _created_order].
      rewrite elem_of_app, list_elem_of_singleton, <- Horder.
      destruct (decide (id = i)) as [-> | Hne].
      * rewrite lookup_insert_eq. split; [by right | by eexists].
      * rewrite lookup_insert_ne by done. tauto.
    + intros id. destruct (decide (id = i)) as [-> | Hne].
      * intros _. cbn [create_execution fst _logs]. unfold setdefault.
        destruct (_logs s !! i) eqn:Hold; [by rewrite Hold | by rewrite lookup_insert_eq].
      * rewrite create_execution_other, create_execution_logs_other by done. apply Hbuffer.
    + intros id d. destruct (decide (id = i)) as [-> | Hne].
      * rewrite create_execution_record. by intros [= <-].
      * rewrite create_execution_other by done. apply Hkey.
  - destruct (_executions s !! i) as [d0|] eqn:Hd0.
    + rewrite (update_status_found _ _ _ _ _ _ _ Hd0). cbn [fst].
      split; cbn [_executions _logs _created_order].
      * intros id. rewrite <- Horder. destruct (decide (id = i)) as [-> | Hne].
        -- rewrite lookup_insert_eq, Hd0. split; by eexists.
        -- by rewrite lookup_insert_ne.
      * intros id. destruct (decide (id = i)) as [-> | Hne].
        -- intros _. apply Hbuffer. by eexists.
        -- rewrite lookup_insert_ne by done. apply Hbuffer.
      * intros id d. destruct (decide (id = i)) as [-> | Hne].
        -- rewrite lookup_insert_eq. intros [= <-].
           rewrite updated_record_id. by apply Hkey.
        -- rewrite lookup_insert_ne by done. apply Hkey.
    + by rewrite (update_status_missing _ _ _ _ _ _ Hd0).
  - split; cbn [append_logs _executions _created_order]; [done | | done].
    intros id Hid. destruct (decide (id = i)) as [-> | Hne].
    + rewrite append_logs_buffer. by eexists.
    + rewrite append_logs_other by done. by apply Hbuffer.
Qed.

Lemma well_formed_run history s : well_formed s → well_formed (run history s).
Proof.
  revert s. induction history as [|[now c] history IH]; intros s Hs; cbn [run]; [done|].
  apply IH. by apply well_formed_call.
Qed.

Lemma reachable_well_formed s : reachable s → well_formed s.
Proof. intros [history ->]. apply well_formed_run, well_formed_init. Qed.

Lemma reachable_init : reachable init.
Proof. by exists []. Qed.

Lemma run_app h1 h2 s : run (h1 ++ h2) s = run h2 (run h1 s).
Proof. revert s. induction h1 as [|[now c] h1 IH]; intros s; cbn; [done | apply IH]. Qed.

Lemma reachable_call now c s : reachable s → reachable (call now c s).
Proof.
  intros [history ->]. exists (history ++ [(now, c)]). by rewrite run_app.
Qed.

(** ** Sorting by creation time *)

Lemma insert_desc_perm x l : insert_desc x l ≡ₚ x :: l.
Proof.
  induction l as [|y l IH]; cbn; [done|].
  destruct (created_at x <? created_at y); [|done].
  rewrite IH. apply Permutation_swap.
Qed.

Lemma sort_created_desc_perm l : sort_created_desc l ≡ₚ l.
Proof.
  induction l as [|x l IH]; cbn; [done|].
  by rewrite insert_desc_perm, IH.
Qed.

Lemma insert_desc_sorted x l :
  StronglySorted newer_first l → StronglySorted newer_first (insert_desc x l).
Proof.
  induction 1 as [|y l Hl IH Hy]; cbn.
  - repeat constructor.
  - destruct (created_at x <? created_at y) eqn:Hlt.
    + apply Z.ltb_lt in Hlt. constructor; [done|].
      rewrite insert_desc_perm. constructor; [unfold newer_first; lia | done].
    + apply Z.ltb_ge in Hlt. constructor; [by constructor|].
      constructor; [done|].
      eapply Forall_impl; [exact Hy|]. unfold newer_first. intros z Hz. lia.
Qed.

Lemma sort_created_desc_sorted l : StronglySorted newer_first (sort_created_desc l).
Proof.
  induction l as [|x l IH]; cbn; [constructor | by apply insert_desc_sorted].
Qed.

Lemma length_omap_le {A B} (f : A → option B) (l : list A) :
  (length (omap f l) ≤ length l)%nat.
Proof. induction l as [|x l IH]; cbn; [done|]. destruct (f x); cbn; lia. Qed.

(** ** Listing *)

Lemma created_order_run history s :
  _created_order (run history s) = _created_order s ++ created_ids history.
Proof.
  revert s. induction history as [|[now c] history IH]; intros s; cbn [run].
  - by rewrite app_nil_r.
  - rewrite IH. destruct c as [i g e p env corr | i st res err | i lines]; cbn.
    + by rewrite <- app_assoc.
    + unfold update_status. by destruct (_executions s !! i).
    + done.
Qed.

Lemma list_executions_unfold s limit st :
  1 ≤ limit →
  list_executions s limit st = sort_created_desc (with_status st (tail_records s limit)).
Proof.
  intros Hl. unfold list_executions, tail_records, with_status.
  rewrite py_slice_from_last by done.
  destruct st as [st|]; [|done].
  f_equal. apply list_filter_iff. intros r. unfold status_is.
  by rewrite bool_decide_eq_true.
Qed.

Example three_records_list_tail :
  list_executions three_records 2 (Some COMPLETED) = [completed_record "e3" 3 5].
Proof. reflexivity. Qed.

Example three_records_list_all :
  execution_id <$> list_executions three_records 10 None = ["e3"; "e2"; "e1"].
Proof. reflexivity. Qed.

(** Scenario C of the design document. *)
Example scenario_c :
  let s := run [(1, sample_create "e1"); (2, sample_create "e2"); (3, sample_create "e3");
                (4, UpdateStatus "e2" COMPLETED None None)] init in
  list_executions s 10 (Some COMPLETED) = [completed_record "e2" 2 4].
Proof. reflexivity. Qed.

(** C5. For every state, every limit [>= 1] and every optional status
    filter, [list_executions] returns the records of the last [limit] ids of
    the creation order, restricted to the records with the filter's status
    when a filter is given, arranged by [created_at] descending; so it
    returns at most [limit] records. The creation order is the order of the
    [create_execution] calls. With a filter the listing can hold fewer than
    [limit] records although an earlier record has the status asked for. *)
Theorem list_executions_take_then_filter (s : Repo) (limit : Z) (st : option ExecutionStatus) :
  1 ≤ limit →
  let tail_ids := drop (length (_created_order s) - Z.to_nat limit) (_created_order s) in
  let candidates := omap (λ i, _executions s !! i) tail_ids in
  let selected :=
    match st with
    | Some st => filter (λ r, status r = st) candidates
    | None => candidates
    end in
  (list_executions s limit st ≡ₚ selected
   ∧ StronglySorted (λ a b, created_at b ≤ created_at a) (list_executions s limit st)
   ∧ len (list_executions s limit st) ≤ limit)
  ∧ (∀ history, _created_order (run history init) = created_ids history)
  ∧ (∃ s0 limit0 st0 id0 d0,
       1 ≤ limit0
       ∧ len (list_executions s0 limit0 (Some st0)) < limit0
       ∧ _executions s0 !! id0 = Some d0 ∧ status d0 = st0
       ∧ d0 ∉ list_executions s0 limit0 (Some st0)).
Proof.
  intros Hl. cbv zeta. split; [|split].
  - rewrite list_executions_unfold by done.
    unfold with_status, tail_records.
    split; [apply sort_created_desc_perm|].
    split; [apply sort_created_desc_sorted|].
    unfold len. rewrite sort_created_desc_perm.
    set (tail_ids := drop _ (_created_order s)).
    assert (length tail_ids ≤ Z.to_nat limit)%nat
      by (unfold tail_ids; rewrite length_drop; lia).
    pose proof (length_omap_le (λ i, _executions s !! i) tail_ids).
    destruct st as [st|]; [|lia].
    pose proof (length_filter (λ r, status r = st) (omap (λ i, _executions s !! i) tail_ids)).
    lia.
  - intros history. by rewrite created_order_run.
  - exists three_records, 2, COMPLETED, "e1", (completed_record "e1" 1 4).
    split; [lia|]. split; [vm_compute; reflexivity|].
    split; [reflexivity|]. split; [reflexivity|].
    rewrite three_records_list_tail, list_elem_of_singleton. discriminate.
Qed.

Lemma list_executions_take_then_filter_witness :
  1 ≤ 2
  ∧ list_executions three_records 2 (Some COMPLETED)
    ≡ₚ filter (λ r, status r = COMPLETED)
         (omap (λ i, _executions three_records !! i) ["e2"; "e3"]).
Proof.
  split; [lia|].
  exact (proj1 (proj1 (list_executions_take_then_filter three_records 2 (Some COMPLETED)
                         ltac:(lia)))).
Defined.

(** ** Creating under an id that exists *)

Section records_of_an_id.
Variable m : gmap string ExecutionDetail.
Variable id : string.
Variable detail : ExecutionDetail.
Hypothesis m_id : m !! id = Some detail.

(** Resolving ids whose records sit under their own id: the records found
  for [id] are as many copies of its record as [id] occurs. *)
Lemma records_of_id (ids : list string) :
(∀ i, i ∈ ids → ∃ d, m !! i = Some d ∧ execution_id d = i) →
filter (λ r, execution_id r = id) (omap (λ i, m !! i) ids)
= replicate (length (filter (λ i, i = id) ids)) detail.
Proof using m_id.
induction ids as [|i ids IH]; intros Hids; [done|].
destruct (Hids i) as (d & Hd & Hkey); [left|].
assert (omap (λ i, m !! i) (i :: ids) = d :: omap (λ i, m !! i) ids) as ->
  by (cbn; by rewrite Hd).
rewrite !filter_cons, IH by (intros j Hj; apply Hids; by right).
destruct (decide (i = id)) as [-> | Hne].
- rewrite decide_True by done. cbn. f_equal. congruence.
- rewrite decide_False by congruence. done.
Qed.

Lemma filter_replicate (P : ExecutionDetail → Prop) `{!∀ r, Decision (P r)} (n : nat) :
  P detail → filter P (replicate n detail) = replicate n detail.
Proof.
  intros HP. induction n as [|n IH]; [done|].
  cbn [replicate]. by rewrite filter_cons_True, IH.
Qed.
End records_of_an_id.

Lemma filter_with_status (P : ExecutionDetail → Prop) `{!∀ r, Decision (P r)}
    (st : option ExecutionStatus) (l : list ExecutionDetail) :
  filter P (with_status st l) = with_status st (filter P l).
Proof.
  destruct st as [st|]; [|done]. cbn [with_status].
  rewrite !list_filter_filter. apply list_filter_iff. tauto.
Qed.

(** C10. When [create_execution] is called with an id that already has a
    record (in a reachable state), the call succeeds and stores a fresh
    QUEUED record under the id (new [created_at] and [updated_at], no result,
    no error); the id's log buffer stays as it was, with its lines; the id is
    appended once more to the creation order; and a following listing whose
    limit covers the creation order (with no filter, or the filter QUEUED)
    holds the new record once per occurrence of the id in the creation
    order, which is at least twice. *)
Theorem create_execution_existing_id (now : Z) (s : Repo) (id : string) (old : ExecutionDetail)
    (g : GitSource) (e : string) (p : gmap string JsonValue)
    (env : ExecutionEnvironment) (corr : option string) :
  reachable s →
  _executions s !! id = Some old →
  let '(s', detail) := create_execution now s id g e p env corr in
  let occurrences := length (filter (λ i, i = id) (_created_order s')) in
  _executions s' !! id = Some detail
  ∧ status detail = QUEUED
  ∧ created_at detail = now ∧ updated_at detail = now
  ∧ result detail = None ∧ error detail = None
  ∧ is_Some (_logs s !! id) ∧ _logs s' = _logs s
  ∧ _created_order s' = _created_order s ++ [id]
  ∧ (2 ≤ occurrences)%nat
  ∧ (∀ limit st,
       len (_created_order s') ≤ limit → st = None ∨ st = Some QUEUED →
       filter (λ r, execution_id r = id) (list_executions s' limit st)
       = replicate occurrences detail).
Proof.
  intros Hreach Hold.
  pose proof (reachable_well_formed s Hreach) as Hwf.
  pose proof (reachable_well_formed _ (reachable_call now (CreateExecution id g e p env corr) s Hreach))
    as Hwf'.
  pose proof (create_execution_record now s id g e p env corr) as Hrec.
  pose proof (create_execution_returns now s id g e p env corr) as Hret.
  assert (Hlogs : is_Some (_logs s !! id)) by (apply Hwf; by eexists).
  assert (Hkeep : _logs (create_execution now s id g e p env corr).1 = _logs s).
  { cbn [create_execution fst _logs]. unfold setdefault. by destruct Hlogs as [? ->]. }
  assert (Horder : _created_order (create_execution now s id g e p env corr).1
                   = _created_order s ++ [id]) by done.
  cbn [call] in Hwf'.
  destruct (create_execution now s id g e p env corr) as [s' detail].
  cbn [fst snd] in *. cbv zeta.
  assert (Hrec' : _executions s' !! id = Some detail) by (by rewrite Hrec, Hret).
  split; [exact Hrec'|].
  rewrite Hret at 1 2 3 4 5.
  do 5 (split; [reflexivity|]).
  split; [done|]. split; [done|]. split; [done|].
  assert (Hocc : (2 ≤ length (filter (λ i, i = id) (_created_order s')))%nat).
  { rewrite Horder, filter_app, length_app.
    rewrite filter_cons_True by done. cbn [length filter].
    assert (Hin : id ∈ _created_order s) by (apply Hwf; by eexists).
    apply list_elem_of_split in Hin as (l1 & l2 & ->).
    rewrite filter_app, filter_cons_True, length_app by done. cbn [length]. lia. }
  split; [exact Hocc|].
  intros limit st Hlimit Hst.
  assert (1 ≤ limit).
  { pose proof (length_filter (λ i, i = id) (_created_order s')).
    unfold len in Hlimit. lia. }
  rewrite list_executions_unfold by done.
  assert (Hperm : filter (λ r, execution_id r = id)
                    (sort_created_desc (with_status st (tail_records s' limit)))
                  ≡ₚ filter (λ r, execution_id r = id)
                       (with_status st (tail_records s' limit)))
    by (by rewrite sort_created_desc_perm).
  assert (Hall : filter (λ r, execution_id r = id) (with_status st (tail_records s' limit))
                 = replicate (length (filter (λ i, i = id) (_created_order s'))) detail).
  { rewrite filter_with_status. unfold tail_records.
    replace (length (_created_order s') - Z.to_nat limit)%nat with 0%nat
      by (unfold len in Hlimit; lia).
    rewrite drop_0, (records_of_id _ id detail Hrec') by
      (intros i Hi; apply Hwf' in Hi as [d Hd]; exists d; split; [done|];
       by apply Hwf').
    destruct Hst as [-> | ->]; [done|]. cbn [with_status].
    apply filter_replicate. by rewrite Hret. }
  rewrite Hall in Hperm. symmetry. by apply replicate_Permutation.
Qed.

Lemma create_execution_existing_id_witness :
  reachable completed_e1
  ∧ (∃ old, _executions completed_e1 !! "e1" = Some old)
  ∧ filter (λ r, execution_id r = "e1") (list_executions recreated_e1.1 2 None)
    = [recreated_e1.2; recreated_e1.2].
Proof.
  assert (Hreach : reachable completed_e1) by (eexists; reflexivity).
  split; [exact Hreach|]. split; [eexists; reflexivity|].
  pose proof (create_execution_existing_id 3 completed_e1 "e1"
                (updated_record 2 (fresh_record 1 "e1" sample_git "run.py" ∅ SIMULATED (Some "c1"))
                   COMPLETED (Some {["ok" := JBool true]}) None)
                sample_git "other.py" ∅ LOCAL None Hreach eq_refl) as H.
  fold recreated_e1 in H. destruct recreated_e1 as [s' detail]. cbv zeta in H.
  destruct H as (_ & _ & _ & _ & _ & _ & _ & _ & Horder & _ & Hlist).
  cbn [fst snd]. rewrite (Hlist 2 None); [by rewrite Horder | rewrite Horder; done | by left].
Defined.

(** ** Timestamps *)

Lemma timestamps_ordered_init bound : timestamps_ordered bound init.
Proof. intros id d. cbn. by rewrite lookup_empty. Qed.

Lemma timestamps_ordered_weaken bound bound' s :
  bound ≤ bound' → timestamps_ordered bound s → timestamps_ordered bound' s.
Proof. intros Hle Hs id d Hd. specialize (Hs id d Hd). lia. Qed.

(** A call whose clock reading is not before the bound keeps the order. *)
Lemma timestamps_ordered_call bound now c s :
  timestamps_ordered bound s → bound ≤ now → timestamps_ordered now (call now c s).
Proof.
  intros Hs Hle.
  destruct c as [i g e p env corr | i st res err | i lines]; cbn [call].
  - intros id d. destruct (decide (id = i)) as [-> | Hne].
    + rewrite create_execution_record. intros [= <-]. cbn. lia.
    + rewrite create_execution_other by done. intros Hd. specialize (Hs id d Hd). lia.
  - destruct (_executions s !! i) as [d0|] eqn:Hd0.
    + rewrite (update_status_found _ _ _ _ _ _ _ Hd0). cbn [fst].
      intros id d. cbn [_executions]. destruct (decide (id = i)) as [-> | Hne].
      * rewrite lookup_insert_eq. intros [= <-].
        destruct (updated_record_times now d0 st res err) as [-> ->].
        specialize (Hs i d0 Hd0). lia.
      * rewrite lookup_insert_ne by done. intros Hd. specialize (Hs id d Hd). lia.
    + rewrite (update_status_missing _ _ _ _ _ _ Hd0). cbn [fst].
      by apply (timestamps_ordered_weaken bound).
  - intros id d Hd. specialize (Hs id d Hd). lia.
Qed.

Lemma timestamps_ordered_run history s bound bound' :
  timestamps_ordered bound s →
  StronglySorted Z.le (bound :: history.*1) →
  (∀ t, t ∈ bound :: history.*1 → t ≤ bound') →
  timestamps_ordered bound' (run history s).
Proof.
  revert s bound. induction history as [|[now c] history IH]; intros s bound Hs Hsorted Hbound.
  - cbn [run]. apply (timestamps_ordered_weaken bound); [|done]. apply Hbound. left.
  - cbn [run]. cbn [fmap list_fmap fst] in Hsorted, Hbound.
    apply StronglySorted_inv in Hsorted as [Hsorted Hfirst].
    apply (IH _ now).
    + apply (timestamps_ordered_call bound); [done|]. by apply Forall_cons in Hfirst as [? _].
    + exact Hsorted.
    + intros t Ht. apply Hbound. by right.
Qed.

(** After a history read off a clock that never steps back, the records are
    bounded by any reading that is not before those of the history. *)
Lemma timestamps_ordered_history history bound :
  clock_monotone history →
  (∀ t, t ∈ history.*1 → t ≤ bound) →
  timestamps_ordered bound (run history init).
Proof.
  intros Hmono Hbound. destruct history as [|[now c] history].
  - apply timestamps_ordered_init.
  - apply (timestamps_ordered_run _ _ now).
    + apply timestamps_ordered_init.
    + unfold clock_monotone in Hmono. cbn [fmap list_fmap fst] in *.
      constructor; [done|]. apply StronglySorted_inv in Hmono as [_ Hfirst].
      constructor; [lia | done].
    + intros t [-> | Ht]%elem_of_cons; [apply Hbound; left | by apply Hbound].
Qed.

Lemma readings_bounded (l : list Z) : ∃ bound, ∀ t, t ∈ l → t ≤ bound.
Proof.
  induction l as [|x l [b Hb]]; [exists 0; by intros t ?%elem_of_nil|].
  exists (Z.max x b). intros t [-> | Ht]%elem_of_cons; [lia|]. specialize (Hb t Ht). lia.
Qed.

(** C7, as stated, fails: [updated_at] is whatever the wall clock reads at
    the call, so a clock that is set back leaves a record updated before it
    was created, or makes [updated_at] decrease from one [update_status] to
    the next. *)
Lemma updated_at_follows_wall_clock :
  (∃ d, _executions (run clock_steps_back init) !! "e1" = Some d
        ∧ updated_at d < created_at d)
  ∧ (∃ d d', _executions (run (take 2 clock_steps_back_later) init) !! "e1" = Some d
             ∧ _executions (run clock_steps_back_later init) !! "e1" = Some d'
             ∧ updated_at d' < updated_at d).
Proof.
  split.
  - eexists. split; [reflexivity|]. cbn. lia.
  - eexists _, _. split; [reflexivity|]. split; [reflexivity|]. cbn. lia.
Qed.

(** C7, amended. Along every history of calls whose clock readings never
    step back, every record has [updated_at >= created_at], and each
    [update_status] call of the history leaves the record with an
    [updated_at] that is not before the one it had. *)
Theorem timestamps_monotone_clock (history : list (Z * Call)) :
  clock_monotone history →
  (∀ id d, _executions (run history init) !! id = Some d → created_at d ≤ updated_at d)
  ∧ (∀ before now id st res err after d d',
       history = before ++ (now, UpdateStatus id st res err) :: after →
       _executions (run before init) !! id = Some d →
       _executions (run (before ++ [(now, UpdateStatus id st res err)]) init) !! id = Some d' →
       updated_at d ≤ updated_at d' ∧ created_at d' ≤ updated_at d').
Proof.
  intros Hmono. split.
  - destruct (readings_bounded history.*1) as [bound Hbound].
    intros id d Hd.
    by destruct (timestamps_ordered_history history bound Hmono Hbound id d Hd).
  - intros before now id st res err after d d' -> Hd Hd'.
    unfold clock_monotone in Hmono. rewrite fmap_app in Hmono. cbn [fmap list_fmap fst] in Hmono.
    assert (Hprefix : timestamps_ordered now (run before init)).
    { apply timestamps_ordered_history.
      - by apply StronglySorted_app_1_l in Hmono.
      - intros t Ht. apply (StronglySorted_app_1_elem_of _ _ _ t now Hmono Ht). left. }
    rewrite run_app in Hd'. cbn [run call] in Hd'.
    rewrite (update_status_found _ _ _ _ _ _ _ Hd) in Hd'. cbn [fst _executions] in Hd'.
    rewrite lookup_insert_eq in Hd'. injection Hd' as <-.
    destruct (updated_record_times now d st res err) as [-> ->].
    specialize (Hprefix id d Hd). lia.
Qed.

Lemma timestamps_monotone_clock_witness :
  clock_monotone clock_steady
  ∧ ∀ id d, _executions (run clock_steady init) !! id = Some d → created_at d ≤ updated_at d.
Proof.
  assert (Hmono : clock_monotone clock_steady).
  { unfold clock_monotone. cbn. repeat constructor; lia. }
  split; [exact Hmono|].
  exact (proj1 (timestamps_monotone_clock clock_steady Hmono)).
Defined.

(** ** Statistics *)

Lemma status_value_inj st1 st2 : status_value st1 = status_value st2 → st1 = st2.
Proof. by destruct st1, st2. Qed.

Lemma status_value_not_total st : status_value st ≠ "total".
Proof. by destruct st. Qed.

Lemma tallies_step totals total count d :
  tallies totals total count →
  tallies (stats_step totals d) total
          (λ st, count st + if decide (status d = st) then 1 else 0).
Proof.
  intros [Htotal Hstatus Hkeys]. unfold stats_step. rewrite Hstatus. split.
  - rewrite lookup_insert_ne; [done | apply status_value_not_total].
  - intros st. destruct (decide (status d = st)) as [-> | Hne].
    + by rewrite lookup_insert_eq.
    + rewrite lookup_insert_ne by (intros ?%status_value_inj; done).
      rewrite Hstatus. f_equal. lia.
  - intros k. destruct (decide (status_value (status d) = k)) as [<- | Hne].
    + intros _. right. by eexists.
    + rewrite lookup_insert_ne by done. apply Hkeys.
Qed.

Lemma tallies_ext totals total count count' :
  (∀ st, count st = count' st) → tallies totals total count → tallies totals total count'.
Proof. intros Heq [? Hst ?]. split; [done | | done]. intros st. by rewrite <- Heq. Qed.

Lemma tallies_foldl records totals total count :
  tallies totals total count →
  tallies (foldl stats_step totals records) total
          (λ st, count st + Z.of_nat (length (filter (λ d, status d = st) records))).
Proof.
  revert totals count. induction records as [|d records IH]; intros totals count Ht.
  - cbn. eapply tallies_ext; [|exact Ht]. intros st. cbn. lia.
  - cbn [foldl]. eapply tallies_ext; [|apply IH, tallies_step, Ht].
    intros st. cbn beta. rewrite filter_cons.
    destruct (decide (status d = st)); cbn [length]; lia.
Qed.

Lemma tallies_initial total :
  tallies (<["timeout" := 0]> (<["canceled" := 0]> (<["failed" := 0]> (<["completed" := 0]>
          (<["running" := 0]> (<["queued" := 0]> (<["total" := total]> ∅)))))))
          total (λ _, 0).
Proof.
  split.
  - done.
  - by intros [].
  - intros k. rewrite !lookup_insert. repeat case_decide; subst.
    + intros _. right. by exists TIMEOUT.
    + intros _. right. by exists CANCELED.
    + intros _. right. by exists FAILED.
    + intros _. right. by exists COMPLETED.
    + intros _. right. by exists RUNNING.
    + intros _. right. by exists QUEUED.
    + intros _. by left.
    + rewrite lookup_empty. by intros [? ?].
Qed.

(** C9. For every state, [stats] returns a mapping whose "total" is the
    number of records and which maps each of the six status names to the
    number of records in that status, and it has no other key. After two
    QUEUED records and one COMPLETED record are in place it returns total 3,
    queued 2, completed 1 and 0 for the other four. *)
Theorem stats_counts (s : Repo) :
  stats s !! "total" = Some (Z.of_nat (size (_executions s)))
  ∧ (∀ st, stats s !! status_value st = Some (count_status st (_executions s)))
  ∧ (∀ k, is_Some (stats s !! k) ↔ k = "total" ∨ ∃ st, k = status_value st)
  ∧ (stats scenario_d !! "total" = Some 3
     ∧ stats scenario_d !! "queued" = Some 2
     ∧ stats scenario_d !! "completed" = Some 1
     ∧ stats scenario_d !! "running" = Some 0
     ∧ stats scenario_d !! "failed" = Some 0
     ∧ stats scenario_d !! "canceled" = Some 0
     ∧ stats scenario_d !! "timeout" = Some 0).
Proof.
  pose proof (tallies_foldl (map_to_list (_executions s)).*2 _ _ _
                (tallies_initial (Z.of_nat (size (_executions s))))) as [Htotal Hstatus Hkeys].
  fold (stats s) in Htotal, Hstatus, Hkeys.
  split; [exact Htotal|]. split; [|split].
  - intros st. by rewrite Hstatus.
  - intros k. split; [apply Hkeys|].
    intros [-> | [st ->]]; [by rewrite Htotal | by rewrite Hstatus].
  - repeat split.
Qed.

(** * Further properties of the repository *)

(** ** What a history of calls never undoes *)

Lemma buffer_of_append_logs s id lines id' :
  buffer_of (append_logs s id lines) id'
  = if decide (id' = id) then buffer_of s id ++ lines else buffer_of s id'.
Proof.
  unfold buffer_of at 1. destruct (decide (id' = id)) as [-> | Hne].
  - by rewrite append_logs_buffer.
  - by rewrite append_logs_other.
Qed.

Lemma logs_call now c s id :
  buffer_of s id `prefix_of` buffer_of (call now c s) id
  ∧ (is_Some (_logs s !! id) → is_Some (_logs (call now c s) !! id)).
Proof.
  destruct c as [i g e p env corr | i st res err | i lines]; cbn [call].
  - destruct (decide (id = i)) as [-> | Hne].
    + rewrite create_execution_buffer. split; [done|].
      intros [old Hold]. cbn [create_execution fst _logs]. unfold setdefault.
      rewrite Hold. by eexists.
    + unfold buffer_of. by rewrite create_execution_logs_other.
  - unfold update_status. by destruct (_executions s !! i).
  - rewrite buffer_of_append_logs. destruct (decide (id = i)) as [-> | Hne].
    + split; [by apply prefix_app_r|]. intros _. rewrite append_logs_buffer. by eexists.
    + by rewrite append_logs_other.
Qed.

Lemma executions_call now c s id :
  is_Some (_executions s !! id) → is_Some (_executions (call now c s) !! id).
Proof.
  intros Hid.
  destruct c as [i g e p env corr | i st res err | i lines]; cbn [call]; [| |done].
  - destruct (decide (id = i)) as [-> | Hne].
    + rewrite create_execution_record. by eexists.
    + by rewrite create_execution_other.
  - destruct (_executions s !! i) as [d0|] eqn:Hd0.
    + rewrite (update_status_found _ _ _ _ _ _ _ Hd0). cbn [fst _executions].
      destruct (decide (id = i)) as [-> | Hne].
      * rewrite lookup_insert_eq. by eexists.
      * by rewrite lookup_insert_ne.
    + by rewrite (update_status_missing _ _ _ _ _ _ Hd0).
Qed.

Lemma created_order_call now c s :
  _created_order s `prefix_of` _created_order (call now c s).
Proof.
  destruct c as [i g e p env corr | i st res err | i lines]; cbn [call].
  - by apply prefix_app_r.
  - unfold update_status. by destruct (_executions s !! i).
  - done.
Qed.

(** X1. No history of calls deletes anything: an id that has a record keeps
    having one, every log buffer is a prefix of what it is later (lines are
    never removed, reordered or rewritten), a buffer that exists keeps
    existing, and the creation order is only ever extended. *)
Theorem history_only_adds (history : list (Z * Call)) (s : Repo) :
  (∀ id, is_Some (_executions s !! id) → is_Some (_executions (run history s) !! id))
  ∧ (∀ id, buffer_of s id `prefix_of` buffer_of (run history s) id)
  ∧ (∀ id, is_Some (_logs s !! id) → is_Some (_logs (run history s) !! id))
  ∧ _created_order s `prefix_of` _created_order (run history s).
Proof.
  revert s. induction history as [|[now c] history IH]; intros s; cbn [run]; [done|].
  destruct (IH (call now c s)) as (IHrec & IHbuf & IHlog & IHorder).
  split; [|split; [|split]].
  - intros id Hid. by apply IHrec, executions_call.
  - intros id. etrans; [apply (logs_call now c s id) | apply IHbuf].
  - intros id Hid. by apply IHlog, (logs_call now c s id).
  - etrans; [apply created_order_call | apply IHorder].
Qed.

Lemma same_identity_refl d : same_identity d d.
Proof. by repeat split. Qed.

Lemma same_identity_trans d1 d2 d3 :
  same_identity d1 d2 → same_identity d2 d3 → same_identity d1 d3.
Proof. unfold same_identity. intros ? ?. intuition congruence. Qed.

Lemma same_identity_updated now d st res err :
  same_identity d (updated_record now d st res err).
Proof. destruct res, err; by repeat split. Qed.

(** X2. Along a history that holds no [create_execution] for an id, the
    record of that id keeps the fields it was built with: id, environment,
    git source, entrypoint, parameters, correlation id, [created_at] and logs
    pointer. Calls on other ids, [update_status] and [append_logs] never
    touch them. *)
Theorem identity_fields_fixed (history : list (Z * Call)) (s : Repo) (id : string)
    (d : ExecutionDetail) :
  Forall (λ tc, ¬ creates id tc.2) history →
  _executions s !! id = Some d →
  ∃ d', _executions (run history s) !! id = Some d' ∧ same_identity d d'.
Proof.
  revert s d. induction history as [|[now c] history IH]; intros s d Hno Hd; cbn [run].
  - exists d. split; [done | apply same_identity_refl].
  - apply Forall_cons in Hno as [Hc Hno]. cbn [snd] in Hc.
    assert (∃ d1, _executions (call now c s) !! id = Some d1 ∧ same_identity d d1)
      as (d1 & Hd1 & Hsame).
    { destruct c as [i g e p env corr | i st res err | i lines]; cbn [call].
      - exists d. rewrite create_execution_other by (cbn in Hc; congruence).
        split; [done | apply same_identity_refl].
      - destruct (_executions s !! i) as [d0|] eqn:Hd0.
        + rewrite (update_status_found _ _ _ _ _ _ _ Hd0). cbn [fst _executions].
          destruct (decide (id = i)) as [-> | Hne].
          * rewrite lookup_insert_eq. eexists. split; [done|].
            replace d with d0 by congruence. apply same_identity_updated.
          * rewrite lookup_insert_ne by done. exists d.
            split; [done | apply same_identity_refl].
        + rewrite (update_status_missing _ _ _ _ _ _ Hd0). exists d.
          split; [done | apply same_identity_refl].
      - exists d. split; [done | apply same_identity_refl]. }
    destruct (IH _ d1 Hno Hd1) as (d' & Hd' & Hsame').
    exists d'. split; [done|]. by apply (same_identity_trans d d1 d').
Qed.

Lemma identity_fields_fixed_witness :
  Forall (λ tc, ¬ creates "e1" tc.2)
    [(2, AppendLogs "e1" ["line1"; "line2"; "line3"]);
     (3, UpdateStatus "e1" COMPLETED (Some {["ok" := JBool true]}) None);
     (4, sample_create "e2")]
  ∧ ∃ d', _executions (run [(2, AppendLogs "e1" ["line1"; "line2"; "line3"]);
                            (3, UpdateStatus "e1" COMPLETED (Some {["ok" := JBool true]}) None);
                            (4, sample_create "e2")]
                         (call 1 (sample_create "e1") init)) !! "e1" = Some d'
          ∧ same_identity (fresh_record 1 "e1" sample_git "run.py" ∅ SIMULATED None) d'.
Proof.
  assert (Hno : Forall (λ tc : Z * Call, ¬ creates "e1" tc.2)
                  [(2, AppendLogs "e1" ["line1"; "line2"; "line3"]);
                   (3, UpdateStatus "e1" COMPLETED (Some {["ok" := JBool true]}) None);
                   (4, sample_create "e2")]).
  { repeat constructor; cbn; [tauto | tauto | discriminate]. }
  split; [exact Hno|].
  exact (identity_fields_fixed _ (call 1 (sample_create "e1") init) "e1"
           (fresh_record 1 "e1" sample_git "run.py" ∅ SIMULATED None) Hno eq_refl).
Defined.

(** ** How calls compose *)



Lemma repo_eq (s1 s2 : Repo) :
  _executions s1 = _executions s2 → _logs s1 = _logs s2 →
  _created_order s1 = _created_order s2 → s1 = s2.
Proof. destruct s1, s2. cbn. by intros -> -> ->. Qed.

Lemma append_logs_lookup s id lines id' :
  _logs (append_logs s id lines) !! id'
  = if decide (id' = id) then Some (buffer_of s id ++ lines) else _logs s !! id'.
Proof.
  destruct (decide (id' = id)) as [-> | Hne].
  - apply append_logs_buffer.
  - by apply append_logs_other.
Qed.

(** X4. [append_logs] composes: appending [lines1] and then [lines2] under
    an id leaves the repository as appending [lines1 + lines2] at once does,
    and appends under two different ids can be swapped. *)
Theorem append_logs_compose (s : Repo) (id : string) (lines1 lines2 : list string) :
  append_logs (append_logs s id lines1) id lines2 = append_logs s id (lines1 ++ lines2)
  ∧ (∀ id' lines', id' ≠ id →
       append_logs (append_logs s id lines1) id' lines'
       = append_logs (append_logs s id' lines') id lines1).
Proof.
  split.
  - apply repo_eq; [done | | done]. apply map_eq. intros k.
    rewrite !append_logs_lookup, buffer_of_append_logs.
    destruct (decide (k = id)); [|done].
    by rewrite decide_True, app_assoc.
  - intros id' lines' Hne. apply repo_eq; [done | | done]. apply map_eq. intros k.
    rewrite !append_logs_lookup, !buffer_of_append_logs.
    rewrite (decide_False (P := id' = id)), (decide_False (P := id = id')) by done.
    destruct (decide (k = id')), (decide (k = id)); congruence.
Qed.

(** ** More on reading logs *)

Lemma read_logs_unfold s id (offset limit : Z) :
  0 ≤ offset → 0 ≤ limit →
  read_logs s id offset limit
  = (take (Z.to_nat limit) (drop (Z.to_nat offset) (buffer_of s id)),
     Z.min (len (buffer_of s id)) (offset + limit),
     terminal_at s id && (len (buffer_of s id) <=? Z.min (len (buffer_of s id)) (offset + limit))).
Proof.
  intros Ho Hl.
  pose proof (read_logs_lines s id offset limit Ho Hl) as Hlines.
  unfold read_logs in *. cbn [fst] in Hlines. by rewrite Hlines.
Qed.

Lemma read_at_former_end s id lines (limit : Z) :
  len lines ≤ limit →
  read_logs (append_logs s id lines) id (len (buffer_of s id)) limit
  = (lines, len (buffer_of s id) + len lines, terminal_at s id).
Proof.
  intros Hlimit. unfold len in *.
  rewrite read_logs_unfold by lia.
  rewrite buffer_of_append_logs, decide_True by done.
  rewrite Nat2Z.id, drop_app_length, take_ge by lia.
  unfold len. rewrite length_app.
  replace (Z.min _ _) with (Z.of_nat (length (buffer_of s id)) + Z.of_nat (length lines)) by lia.
  unfold terminal_at. cbn [append_logs _executions].
  assert ((Z.of_nat (length (buffer_of s id) + length lines)
           <=? Z.of_nat (length (buffer_of s id)) + Z.of_nat (length lines)) = true) as ->
    by (apply Z.leb_le; lia).
  by rewrite andb_true_r.
Qed.

(** X5. A reader placed at the end of a buffer gets what is appended next:
    after [append_logs(id, lines)], reading the id from the former length of
    its buffer with a limit of at least [len(lines)] returns exactly [lines]
    and the new length as next offset; eof is true exactly when the id has a
    record in a terminal status. *)
Theorem read_logs_after_append (s : Repo) (id : string) (lines : list string) (limit : Z) :
  len lines ≤ limit →
  read_logs (append_logs s id lines) id (len (buffer_of s id)) limit
  = (lines, len (buffer_of s id) + len lines, terminal_at s id).
Proof. apply read_at_former_end. Qed.

Lemma read_logs_after_append_witness :
  len ["line4"; "line5"] ≤ 10
  ∧ read_logs (append_logs scenario_a_completed "e1" ["line4"; "line5"]) "e1"
      (len (buffer_of scenario_a_completed "e1")) 10
    = (["line4"; "line5"], len (buffer_of scenario_a_completed "e1") + len ["line4"; "line5"],
       terminal_at scenario_a_completed "e1").
Proof.
  assert (H : len ["line4"; "line5"] ≤ 10) by (vm_compute; discriminate).
  split; [exact H|].
  exact (read_logs_after_append scenario_a_completed "e1" ["line4"; "line5"] 10 H).
Defined.

(** X6. An eof is not final. [append_logs] does not look at the status: for
    a record in a terminal status, a read at the end of the buffer returns no
    line and eof true, and after lines are appended the same read returns
    those lines. *)
Theorem eof_then_more_lines (s : Repo) (id : string) (d : ExecutionDetail)
    (lines : list string) (limit : Z) :
  _executions s !! id = Some d →
  is_terminal (status d) = true →
  1 ≤ limit → len lines ≤ limit →
  read_logs s id (len (buffer_of s id)) limit = ([], len (buffer_of s id), true)
  ∧ read_logs (append_logs s id lines) id (len (buffer_of s id)) limit
    = (lines, len (buffer_of s id) + len lines, true).
Proof.
  intros Hd Hterm Hl Hlines.
  assert (Hat : terminal_at s id = true) by (unfold terminal_at; by rewrite Hd).
  split.
  - rewrite read_logs_unfold by (unfold len; lia). rewrite Hat. unfold len.
    rewrite Nat2Z.id, drop_all, take_nil.
    replace (Z.min _ _) with (Z.of_nat (length (buffer_of s id))) by lia.
    by rewrite Z.leb_refl.
  - rewrite <- Hat. by apply read_at_former_end.
Qed.

Lemma eof_then_more_lines_witness :
  _executions scenario_a_completed !! "e1" = Some scenario_a_record
  ∧ is_terminal (status scenario_a_record) = true
  ∧ 1 ≤ 10 ∧ len ["line4"] ≤ 10
  ∧ read_logs scenario_a_completed "e1" (len (buffer_of scenario_a_completed "e1")) 10
    = ([], len (buffer_of scenario_a_completed "e1"), true).
Proof.
  assert (H1 : 1 ≤ 10) by lia.
  assert (H2 : len ["line4"] ≤ 10) by (vm_compute; discriminate).
  split; [reflexivity|]. split; [reflexivity|]. split; [exact H1|]. split; [exact H2|].
  exact (proj1 (eof_then_more_lines scenario_a_completed "e1" scenario_a_record ["line4"] 10
                  eq_refl eq_refl H1 H2)).
Defined.

(** X7. Sizes of a read, for an offset [>= 0] and a limit [>= 0]: the number
    of lines returned is [min(limit, len(buffer) - offset)], or 0 when the
    offset is past the end; the next offset lies in [0 .. len(buffer)]; and
    when the offset is within the buffer the next offset is the offset plus
    the number of lines returned. *)
Theorem read_logs_sizes (s : Repo) (id : string) (offset limit : Z) :
  0 ≤ offset → 0 ≤ limit →
  let '(lines, next_offset, _) := read_logs s id offset limit in
  len lines = Z.max 0 (Z.min limit (len (buffer_of s id) - offset))
  ∧ 0 ≤ next_offset ≤ len (buffer_of s id)
  ∧ (offset ≤ len (buffer_of s id) → next_offset = offset + len lines).
Proof.
  intros Ho Hl. rewrite read_logs_unfold by done.
  unfold len. rewrite length_take, length_drop. lia.
Qed.

Lemma read_logs_sizes_witness :
  0 ≤ 1 ∧ 0 ≤ 5
  ∧ len (read_logs scenario_a "e1" 1 5).1.1
    = Z.max 0 (Z.min 5 (len (buffer_of scenario_a "e1") - 1)).
Proof.
  assert (H1 : 0 ≤ 1) by lia. assert (H2 : 0 ≤ 5) by lia.
  split; [exact H1|]. split; [exact H2|].
  pose proof (read_logs_sizes scenario_a "e1" 1 5 H1 H2) as H.
  destruct (read_logs scenario_a "e1" 1 5) as [[lines next_offset] eof].
  exact (proj1 H).
Defined.

(** X8. Reading at or past the end of the buffer is no error: for an offset
    [>= len(buffer)] and a limit [>= 0] the read returns no line, and the
    next offset is [len(buffer)], so it is below the offset asked for when
    that was past the end; eof tells whether the id has a record in a
    terminal status. *)
Theorem read_logs_past_end (s : Repo) (id : string) (offset limit : Z) :
  len (buffer_of s id) ≤ offset → 0 ≤ limit →
  read_logs s id offset limit = ([], len (buffer_of s id), terminal_at s id).
Proof.
  intros Ho Hl. unfold len in *.
  rewrite read_logs_unfold by lia. unfold len.
  rewrite drop_ge, take_nil by lia.
  replace (Z.min _ _) with (Z.of_nat (length (buffer_of s id))) by lia.
  by rewrite Z.leb_refl, andb_true_r.
Qed.

Lemma read_logs_past_end_witness :
  len (buffer_of scenario_a "e1") ≤ 7 ∧ 0 ≤ 2
  ∧ read_logs scenario_a "e1" 7 2 = ([], len (buffer_of scenario_a "e1"), terminal_at scenario_a "e1").
Proof.
  assert (H1 : len (buffer_of scenario_a "e1") ≤ 7) by (vm_compute; discriminate).
  assert (H2 : 0 ≤ 2) by lia.
  split; [exact H1|]. split; [exact H2|].
  exact (read_logs_past_end scenario_a "e1" 7 2 H1 H2).
Defined.

(** X9. Following the cursor loses and repeats nothing: the lines of a read
    at [(o, l)], followed by the lines of a read that starts at the next
    offset the first read returned, are the lines of the one read at
    [(o, l + l')], wherever [o >= 0] lies, also past the end. *)
Theorem read_logs_follow_cursor (s : Repo) (id : string) (o l l' : Z) :
  0 ≤ o → 1 ≤ l → 1 ≤ l' →
  let '(lines, next_offset, _) := read_logs s id o l in
  lines ++ (read_logs s id next_offset l').1.1 = (read_logs s id o (l + l')).1.1.
Proof.
  intros Ho Hl Hl'.
  rewrite (read_logs_unfold s id o l) by lia.
  rewrite !read_logs_lines by (unfold len; lia).
  set (buffer := buffer_of s id). unfold len.
  destruct (Z_le_gt_dec (o + l) (Z.of_nat (length buffer))) as [Hfit | Hcut].
  - rewrite Z.min_r by lia.
    rewrite !Z2Nat.inj_add by lia.
    rewrite <- (drop_drop buffer). apply take_take_drop.
  - rewrite Z.min_l by lia. rewrite Nat2Z.id, drop_all, take_nil, app_nil_r.
    rewrite !take_ge; [done | rewrite length_drop; lia | rewrite length_drop; lia].
Qed.

Lemma read_logs_follow_cursor_witness :
  0 ≤ 1 ∧ 1 ≤ 5 ∧ 1 ≤ 5
  ∧ (read_logs scenario_a "e1" 1 5).1.1
      ++ (read_logs scenario_a "e1" (read_logs scenario_a "e1" 1 5).1.2 5).1.1
    = (read_logs scenario_a "e1" 1 (5 + 5)).1.1.
Proof.
  assert (H1 : 0 ≤ 1) by lia. assert (H2 : 1 ≤ 5) by lia.
  split; [exact H1|]. split; [exact H2|]. split; [exact H2|].
  pose proof (read_logs_follow_cursor scenario_a "e1" 1 5 5 H1 H2 H2) as H.
  destruct (read_logs scenario_a "e1" 1 5) as [[lines next_offset] eof].
  exact H.
Defined.

(** ** More on listing *)

Lemma list_executions_sorts s (limit : Z) st :
  list_executions s limit st
  = sort_created_desc
      (with_status st (omap (λ i, _executions s !! i)
                            (py_slice_from (_created_order s) (- limit)))).
Proof.
  unfold list_executions, with_status. destruct st as [st|]; [|done].
  f_equal. apply list_filter_iff. intros r. unfold status_is.
  by rewrite bool_decide_eq_true.
Qed.

Lemma elem_of_with_status st records r :
  r ∈ with_status st records ↔ r ∈ records ∧ ∀ st0, st = Some st0 → status r = st0.
Proof.
  destruct st as [st|]; cbn [with_status].
  - rewrite list_elem_of_filter. split.
    + intros [Hst Hr]. split; [done|]. by intros st0 [= <-].
    + intros [Hr Hst]. split; [by apply Hst | done].
  - split; [|by intros [? _]]. intros Hr. split; [done|]. by intros st0 [=].
Qed.

(** X10. Whatever the limit, every record [list_executions] returns is the
    record stored under an id of the creation order, and with a status filter
    it has the status asked for: the listing invents no record and lets no
    record of another status through. *)
Theorem list_executions_sound (s : Repo) (limit : Z) (st : option ExecutionStatus)
    (r : ExecutionDetail) :
  r ∈ list_executions s limit st →
  (∃ id, id ∈ _created_order s ∧ _executions s !! id = Some r)
  ∧ (∀ st0, st = Some st0 → status r = st0).
Proof.
  rewrite list_executions_sorts, sort_created_desc_perm, elem_of_with_status.
  intros [Hr Hst]. split; [|done].
  apply list_elem_of_omap in Hr as (id & Hid & Hlookup).
  exists id. split; [|done].
  unfold py_slice_from in Hid. by eapply subseteq_drop.
Qed.

Lemma list_executions_sound_witness :
  completed_record "e3" 3 5 ∈ list_executions three_records 2 (Some COMPLETED)
  ∧ (∃ id, id ∈ _created_order three_records
           ∧ _executions three_records !! id = Some (completed_record "e3" 3 5)).
Proof.
  assert (H : completed_record "e3" 3 5 ∈ list_executions three_records 2 (Some COMPLETED))
    by (rewrite three_records_list_tail; left).
  split; [exact H|].
  exact (proj1 (list_executions_sound three_records 2 (Some COMPLETED) _ H)).
Defined.

(** X11. A limit that is not positive is no limit on the newest records:
    [ids[-limit:]] with [limit <= 0] is [ids[k:]] with [k = -limit], so the
    listing is drawn from the creation order without its first [k] ids. With
    limit 0 that is the whole creation order: the listing equals the one for
    any limit that covers the creation order. *)
Theorem list_executions_nonpositive_limit (s : Repo) (limit : Z) (st : option ExecutionStatus) :
  limit ≤ 0 →
  list_executions s limit st
  = sort_created_desc
      (with_status st (omap (λ i, _executions s !! i)
                            (drop (Z.to_nat (- limit)) (_created_order s))))
  ∧ (limit = 0 →
     ∀ covering, 1 ≤ covering → len (_created_order s) ≤ covering →
       list_executions s limit st = list_executions s covering st).
Proof.
  intros Hlimit.
  assert (Hids : py_slice_from (_created_order s) (- limit)
                 = drop (Z.to_nat (- limit)) (_created_order s)).
  { unfold py_slice_from, slice_index.
    assert ((- limit <? 0) = false) as -> by (apply Z.ltb_ge; lia).
    destruct (Z_le_gt_dec (- limit) (len (_created_order s))) as [Hin | Hout].
    - by rewrite Z.min_l.
    - rewrite Z.min_r by lia. unfold len in *.
      rewrite Nat2Z.id, drop_all. symmetry. apply drop_ge. lia. }
  split.
  - by rewrite list_executions_sorts, Hids.
  - intros -> covering Hpos Hcover.
    rewrite list_executions_sorts, Hids, (list_executions_unfold s covering) by done.
    unfold tail_records, len in *.
    replace (length (_created_order s) - Z.to_nat covering)%nat with 0%nat by lia.
    done.
Qed.

Lemma list_executions_nonpositive_limit_witness :
  0 ≤ 0
  ∧ list_executions three_records 0 None = list_executions three_records 10 None.
Proof.
  assert (H : 0 ≤ 0) by lia.
  split; [exact H|].
  refine (proj2 (list_executions_nonpositive_limit three_records 0 None H) eq_refl 10 _ _).
  - lia.
  - vm_compute. discriminate.
Defined.

Lemma omap_lookup_values (m : gmap string ExecutionDetail) (ids : list string) :
  NoDup ids →
  (∀ i, i ∈ ids ↔ is_Some (m !! i)) →
  omap (λ i, m !! i) ids ≡ₚ (map_to_list m).*2.
Proof.
  revert m. induction ids as [|i ids IH]; intros m Hnodup Hdom.
  - assert (m = ∅) as ->.
    { apply map_eq. intros i. rewrite lookup_empty. apply eq_None_not_Some.
      rewrite <- Hdom. apply not_elem_of_nil. }
    by rewrite map_to_list_empty.
  - apply NoDup_cons in Hnodup as [Hfresh Hnodup].
    destruct (proj1 (Hdom i)) as [d Hd]; [left|].
    rewrite <- (map_to_list_delete m i d Hd).
    cbn [omap list_omap fmap list_fmap snd]. rewrite Hd.
    change (d :: omap (λ i0, m !! i0) ids ≡ₚ d :: (map_to_list (delete i m)).*2).
    f_equiv.
    assert (omap (λ j, m !! j) ids = omap (λ j, delete i m !! j) ids) as ->.
    { apply list_omap_ext, Forall_Forall2_diag, Forall_forall.
      intros j Hj. rewrite lookup_delete_ne; [done|]. intros ->. by apply Hfresh. }
    apply IH; [done|].
    intros j. rewrite lookup_delete_is_Some, <- Hdom, elem_of_cons.
    split; [|intros [? [?|?]]; congruence].
    intros Hj. split; [intros ->; by apply Hfresh | by right].
Qed.

(** X12. When no id was created twice, a listing without filter whose limit
    covers the creation order returns every record of the repository exactly
    once. *)
Theorem list_executions_complete (s : Repo) (limit : Z) :
  reachable s →
  NoDup (_created_order s) →
  len (_created_order s) ≤ limit → 1 ≤ limit →
  list_executions s limit None ≡ₚ (map_to_list (_executions s)).*2.
Proof.
  intros Hreach Hnodup Hcover Hpos.
  pose proof (reachable_well_formed s Hreach) as [Horder _ _].
  rewrite list_executions_unfold, sort_created_desc_perm by done.
  cbn [with_status]. unfold tail_records, len in *.
  replace (length (_created_order s) - Z.to_nat limit)%nat with 0%nat by lia.
  rewrite drop_0. apply omap_lookup_values; [done|].
  intros i. by rewrite Horder.
Qed.

Lemma list_executions_complete_witness :
  reachable three_records
  ∧ NoDup (_created_order three_records)
  ∧ len (_created_order three_records) ≤ 3 ∧ 1 ≤ 3
  ∧ list_executions three_records 3 None ≡ₚ (map_to_list (_executions three_records)).*2.
Proof.
  assert (H1 : reachable three_records) by (eexists; reflexivity).
  assert (H2 : NoDup (_created_order three_records)).
  { change (NoDup ["e1"; "e2"; "e3"]).
    repeat (apply NoDup_cons_2;
            [intros Hin;
             repeat (apply elem_of_cons in Hin as [Hin | Hin]; [discriminate Hin|]);
             by apply elem_of_nil in Hin|]).
    apply NoDup_nil_2. }
  assert (H3 : len (_created_order three_records) ≤ 3) by (vm_compute; discriminate).
  assert (H4 : 1 ≤ 3) by lia.
  split; [exact H1|]. split; [exact H2|]. split; [exact H3|]. split; [exact H4|].
  exact (list_executions_complete three_records 3 H1 H2 H3 H4).
Defined.

Lemma filter_insert_desc (t : Z) x l :
  filter (λ r, created_at r = t) (insert_desc x l)
  = filter (λ r, created_at r = t) (x :: l).
Proof.
  induction l as [|y l IH]; [done|]. cbn [insert_desc].
  destruct (created_at x <? created_at y) eqn:Hlt; [|done].
  apply Z.ltb_lt in Hlt.
  rewrite (filter_cons _ y), IH, !filter_cons.
  destruct (decide (created_at y = t)), (decide (created_at x = t)); done || lia.
Qed.

(** X13. The listing is stable: records with one and the same [created_at]
    come out in the order their ids have in the creation order, the earlier
    created first, for [sort] keeps equal keys in their order also with
    [reverse=True]. *)
Theorem list_executions_ties_in_creation_order (s : Repo) (limit : Z)
    (st : option ExecutionStatus) (t : Z) :
  filter (λ r, created_at r = t) (list_executions s limit st)
  = filter (λ r, created_at r = t)
      (with_status st (omap (λ i, _executions s !! i)
                            (py_slice_from (_created_order s) (- limit)))).
Proof.
  rewrite list_executions_sorts.
  induction (with_status st _) as [|x l IH]; [done|].
  cbn [sort_created_desc]. by rewrite filter_insert_desc, !filter_cons, IH.
Qed.

Example same_instant_listed_in_creation_order :
  execution_id <$> list_executions
                     (run [(7, sample_create "a"); (7, sample_create "b"); (9, sample_create "c")] init)
                     10 None
  = ["c"; "a"; "b"].
Proof. reflexivity. Qed.

(** ** Creation and racing appends *)

Lemma create_execution_logs_lookup now s id g e p env corr k :
  _logs (create_execution now s id g e p env corr).1 !! k
  = if decide (k = id) then Some (buffer_of s id) else _logs s !! k.
Proof.
  destruct (decide (k = id)) as [-> | Hne].
  - cbn [create_execution fst _logs]. unfold setdefault, buffer_of.
    destruct (_logs s !! id) as [old|] eqn:Hold; [by rewrite Hold|].
    by rewrite lookup_insert_eq.
  - by apply create_execution_logs_other.
Qed.

Lemma buffer_of_create_execution now s id g e p env corr k :
  buffer_of (create_execution now s id g e p env corr).1 k = buffer_of s k.
Proof.
  unfold buffer_of at 1. rewrite create_execution_logs_lookup.
  by destruct (decide (k = id)) as [-> | ?].
Qed.

(** X14. [create_execution] and [append_logs] can race: whichever of the two
    runs first, for the same id or for different ids, the repository ends in
    the same state. In particular lines appended before the record exists
    are in its buffer once it is created. *)
Theorem create_append_any_order (now : Z) (s : Repo) (id : string) (g : GitSource)
    (e : string) (p : gmap string JsonValue) (env : ExecutionEnvironment)
    (corr : option string) (id' : string) (lines : list string) :
  append_logs (create_execution now s id g e p env corr).1 id' lines
  = (create_execution now (append_logs s id' lines) id g e p env corr).1
  ∧ buffer_of (create_execution now (append_logs s id lines) id g e p env corr).1 id
    = buffer_of s id ++ lines.
Proof.
  split.
  - apply repo_eq; [done | | done]. apply map_eq. intros k.
    rewrite append_logs_lookup, !create_execution_logs_lookup, append_logs_lookup.
    rewrite buffer_of_create_execution, buffer_of_append_logs.
    destruct (decide (k = id')), (decide (k = id)), (decide (id = id')); congruence.
  - by rewrite create_execution_buffer, buffer_of_append_logs, decide_True.
Qed.

(** ** More on statistics *)

Lemma stats_tallies s :
  tallies (stats s) (Z.of_nat (size (_executions s)))
          (λ st, count_status st (_executions s)).
Proof.
  eapply tallies_ext;
    [|exact (tallies_foldl (map_to_list (_executions s)).*2 _ _ _
               (tallies_initial (Z.of_nat (size (_executions s)))))].
  done.
Qed.

Lemma stat_total s : stat (stats s) "total" = Z.of_nat (size (_executions s)).
Proof. unfold stat. by rewrite (tallies_total _ _ _ (stats_tallies s)). Qed.

Lemma stat_status s st :
  stat (stats s) (status_value st) = count_status st (_executions s).
Proof. unfold stat. by rewrite (tallies_status _ _ _ (stats_tallies s)). Qed.

Lemma length_by_status (l : list ExecutionDetail) :
  (length (filter (λ d, status d = QUEUED) l)
   + length (filter (λ d, status d = RUNNING) l)
   + length (filter (λ d, status d = COMPLETED) l)
   + length (filter (λ d, status d = FAILED) l)
   + length (filter (λ d, status d = CANCELED) l)
   + length (filter (λ d, status d = TIMEOUT) l))%nat
  = length l.
Proof.
  induction l as [|d l IH]; [done|].
  rewrite !filter_cons.
  destruct (status d); repeat case_decide; try done; cbn [length]; lia.
Qed.

(** X15. The six status counters of [stats] add up to its total, and none
    is negative: every record is counted under exactly one status name. *)
Theorem stats_counters_add_up (s : Repo) :
  stat (stats s) "queued" + stat (stats s) "running" + stat (stats s) "completed"
  + stat (stats s) "failed" + stat (stats s) "canceled" + stat (stats s) "timeout"
  = stat (stats s) "total"
  ∧ ∀ st, 0 ≤ stat (stats s) (status_value st).
Proof.
  split.
  - rewrite stat_total.
    pose proof (stat_status s QUEUED) as Hq. pose proof (stat_status s RUNNING) as Hr.
    pose proof (stat_status s COMPLETED) as Hc. pose proof (stat_status s FAILED) as Hf.
    pose proof (stat_status s CANCELED) as Hx. pose proof (stat_status s TIMEOUT) as Ht.
    cbn [status_value] in Hq, Hr, Hc, Hf, Hx, Ht. rewrite Hq, Hr, Hc, Hf, Hx, Ht.
    unfold count_status.
    pose proof (length_by_status (map_to_list (_executions s)).*2) as Hsum.
    rewrite length_fmap, length_map_to_list in Hsum. lia.
  - intros st. rewrite stat_status. unfold count_status. lia.
Qed.

Lemma count_status_insert st (m : gmap string ExecutionDetail) i d' :
  count_status st (<[i := d']> m)
  = count_status st m
    + (if decide (status d' = st) then 1 else 0)
    - match m !! i with
      | Some d => if decide (status d = st) then 1 else 0
      | None => 0
      end.
Proof.
  unfold count_status.
  assert (Hnew : map_to_list (<[i := d']> m) ≡ₚ (i, d') :: map_to_list (delete i m)).
  { rewrite <- insert_delete_eq. apply map_to_list_insert, lookup_delete_eq. }
  rewrite Hnew. cbn [fmap list_fmap snd]. rewrite filter_cons.
  destruct (m !! i) as [d|] eqn:Hd.
  - rewrite <- (map_to_list_delete m i d Hd). cbn [fmap list_fmap snd]. rewrite filter_cons.
    destruct (decide (status d' = st)), (decide (status d = st)); cbn [length]; lia.
  - rewrite delete_id by done.
    destruct (decide (status d' = st)); cbn [length]; lia.
Qed.

(** X16. What [update_status] does to the statistics, for an id that has a
    record: the total stays, the counter of the record's former status goes
    down by one and the counter of the new status goes up by one (so nothing
    changes when the status is the same). *)
Theorem stats_after_update_status (now : Z) (s : Repo) (id : string) (d : ExecutionDetail)
    (st : ExecutionStatus) (res : option (gmap string JsonValue)) (err : option string) :
  _executions s !! id = Some d →
  let s' := (update_status now s id st res err).1 in
  stat (stats s') "total" = stat (stats s) "total"
  ∧ ∀ st0, stat (stats s') (status_value st0)
           = stat (stats s) (status_value st0)
             - (if decide (status d = st0) then 1 else 0)
             + (if decide (st = st0) then 1 else 0).
Proof.
  intros Hd. cbv zeta. rewrite (update_status_found _ _ _ _ _ _ _ Hd). cbn [fst].
  split.
  - rewrite !stat_total. cbn [_executions].
    rewrite map_size_insert_Some; [done | by eexists].
  - intros st0. rewrite !stat_status. cbn [_executions].
    rewrite count_status_insert, Hd.
    assert (status (updated_record now d st res err) = st) as -> by (by destruct res, err).
    lia.
Qed.

Lemma stats_after_update_status_witness :
  _executions scenario_d !! "e1"
  = Some (fresh_record 1 "e1" sample_git "run.py" ∅ SIMULATED None)
  ∧ stat (stats (update_status 9 scenario_d "e1" FAILED None (Some "boom")).1) "total"
    = stat (stats scenario_d) "total".
Proof.
  split; [reflexivity|].
  exact (proj1 (stats_after_update_status 9 scenario_d "e1"
                  (fresh_record 1 "e1" sample_git "run.py" ∅ SIMULATED None)
                  FAILED None (Some "boom") eq_refl)).
Defined.

(** X17. What [create_execution] does to the statistics: the "queued"
    counter goes up by one; under a new id the total goes up by one; under
    an id that has a record the total stays and the counter of the replaced
    record's status goes down by one. *)
Theorem stats_after_create_execution (now : Z) (s : Repo) (id : string) (g : GitSource)
    (e : string) (p : gmap string JsonValue) (env : ExecutionEnvironment)
    (corr : option string) :
  let s' := (create_execution now s id g e p env corr).1 in
  stat (stats s') "total"
  = stat (stats s) "total" + (if _executions s !! id is Some _ then 0 else 1)
  ∧ ∀ st0, stat (stats s') (status_value st0)
           = stat (stats s) (status_value st0)
             + (if decide (QUEUED = st0) then 1 else 0)
             - match _executions s !! id with
               | Some d => if decide (status d = st0) then 1 else 0
               | None => 0
               end.
Proof.
  cbv zeta. split.
  - rewrite !stat_total. cbn [create_execution fst _executions].
    rewrite map_size_insert. destruct (_executions s !! id); unfold Datatypes.id; lia.
  - intros st0. rewrite !stat_status. cbn [create_execution fst _executions].
    by rewrite count_status_insert.
Qed.

(** ** Looking records up *)

Lemma logs_pointer_call now c s :
  (∀ id d, _executions s !! id = Some d → logs_pointer d = Some ("mem:" +:+ execution_id d)) →
  ∀ id d, _executions (call now c s) !! id = Some d →
          logs_pointer d = Some ("mem:" +:+ execution_id d).
Proof.
  intros Hs id d.
  destruct c as [i g e p env corr | i st res err | i lines]; cbn [call].
  - destruct (decide (id = i)) as [-> | Hne].
    + rewrite create_execution_record. by intros [= <-].
    + rewrite create_execution_other by done. apply Hs.
  - destruct (_executions s !! i) as [d0|] eqn:Hd0.
    + rewrite (update_status_found _ _ _ _ _ _ _ Hd0). cbn [fst _executions].
      destruct (decide (id = i)) as [-> | Hne].
      * rewrite lookup_insert_eq. intros [= <-].
        destruct (same_identity_updated now d0 st res err) as (-> & _ & _ & _ & _ & _ & _ & ->).
        by apply (Hs i).
      * rewrite lookup_insert_ne by done. apply Hs.
    + rewrite (update_status_missing _ _ _ _ _ _ Hd0). apply Hs.
  - apply Hs.
Qed.

Lemma logs_pointer_run history s :
  (∀ id d, _executions s !! id = Some d → logs_pointer d = Some ("mem:" +:+ execution_id d)) →
  ∀ id d, _executions (run history s) !! id = Some d →
          logs_pointer d = Some ("mem:" +:+ execution_id d).
Proof.
  revert s. induction history as [|[now c] history IH]; intros s Hs; cbn [run]; [done|].
  by apply IH, logs_pointer_call.
Qed.

(** X18. Starting from the empty repository, [get_execution] finds a record
    under an id exactly when some call of the history was a
    [create_execution] with that id: no other method creates a record, and
    no method removes one. *)
Theorem get_execution_iff_created (history : list (Z * Call)) (id : string) :
  is_Some (get_execution (run history init) id) ↔ id ∈ created_ids history.
Proof.
  unfold get_execution.
  rewrite (wf_order _ (well_formed_run history init well_formed_init)).
  by rewrite created_order_run.
Qed.

Lemma size_executions_run history s :
  (size (_executions (run history s)) ≤ size (_executions s) + length (created_ids history))%nat.
Proof.
  revert s. induction history as [|[now c] history IH]; intros s; cbn [run]; [cbn; lia|].
  specialize (IH (call now c s)).
  assert (Hstep : (size (_executions (call now c s)) + length (created_ids history)
                   ≤ size (_executions s) + length (created_ids ((now, c) :: history)))%nat).
  { destruct c as [i g e p env corr | i st res err | i lines]; cbn [call].
    - change (created_ids ((now, CreateExecution i g e p env corr) :: history))
        with (i :: created_ids history).
      cbn [create_execution fst _executions length]. rewrite map_size_insert.
      destruct (_executions s !! i); unfold Datatypes.id; lia.
    - change (created_ids ((now, UpdateStatus i st res err) :: history))
        with (created_ids history).
      destruct (_executions s !! i) as [d0|] eqn:Hd0.
      + rewrite (update_status_found _ _ _ _ _ _ _ Hd0). cbn [fst _executions].
        rewrite map_size_insert_Some by (by eexists). done.
      + by rewrite (update_status_missing _ _ _ _ _ _ Hd0).
    - done. }
  lia.
Qed.

(** X19. In every state a history of calls builds from the empty repository,
    the record [get_execution] returns for an id carries that id, its logs
    pointer is ["mem:"] followed by the id, the id has a log buffer, and there
    are no more records than [create_execution] calls were made. *)
Theorem get_execution_well_formed (history : list (Z * Call)) (id : string)
    (d : ExecutionDetail) :
  get_execution (run history init) id = Some d →
  execution_id d = id
  ∧ logs_pointer d = Some ("mem:" +:+ id)
  ∧ is_Some (_logs (run history init) !! id)
  ∧ (size (_executions (run history init)) ≤ length (created_ids history))%nat.
Proof.
  unfold get_execution. intros Hd.
  pose proof (well_formed_run history init well_formed_init) as [Horder Hbuffer Hkey].
  assert (Hid : execution_id d = id) by (by apply Hkey).
  split; [done|]. split; [|split].
  - rewrite <- Hid. apply (logs_pointer_run history init) with id; [|done].
    intros i d0. cbn. by rewrite lookup_empty.
  - apply Hbuffer. by eexists.
  - apply (size_executions_run history init).
Qed.

Lemma get_execution_well_formed_witness :
  get_execution (run [(1, sample_create "e1"); (2, AppendLogs "e1" ["line1"; "line2"; "line3"]);
                      (3, UpdateStatus "e1" COMPLETED (Some {["ok" := JBool true]}) None)] init) "e1"
  = Some scenario_a_record
  ∧ logs_pointer scenario_a_record = Some ("mem:" +:+ "e1").
Proof.
  split; [reflexivity|].
  exact (proj1 (proj2 (get_execution_well_formed
                         [(1, sample_create "e1"); (2, AppendLogs "e1" ["line1"; "line2"; "line3"]);
                          (3, UpdateStatus "e1" COMPLETED (Some {["ok" := JBool true]}) None)]
                         "e1" scenario_a_record eq_refl))).
Defined.

(** X20. Reads see the last write. The record [create_execution] returns is
    the one [get_execution] returns afterwards; [update_status] returns what
    [get_execution] returns afterwards, which is a record exactly when the id
    had one before; and neither call changes what [get_execution] returns for
    another id, nor does [append_logs] for any id. *)
Theorem get_execution_after_write (now : Z) (s : Repo) (id : string) :
  (∀ g e p env corr,
     get_execution (create_execution now s id g e p env corr).1 id
     = Some (create_execution now s id g e p env corr).2
     ∧ ∀ id', id' ≠ id →
         get_execution (create_execution now s id g e p env corr).1 id' = get_execution s id')
  ∧ (∀ st res err,
       get_execution (update_status now s id st res err).1 id
       = (update_status now s id st res err).2
       ∧ (is_Some (update_status now s id st res err).2 ↔ is_Some (get_execution s id))
       ∧ ∀ id', id' ≠ id →
           get_execution (update_status now s id st res err).1 id' = get_execution s id')
  ∧ (∀ lines id', get_execution (append_logs s id lines) id' = get_execution s id').
Proof.
  unfold get_execution. split; [|split].
  - intros g e p env corr. split; [apply create_execution_record|].
    intros id' Hne. by apply create_execution_other.
  - intros st res err. destruct (_executions s !! id) as [d|] eqn:Hd.
    + rewrite (update_status_found _ _ _ _ _ _ _ Hd). cbn [fst snd _executions].
      split; [apply lookup_insert_eq|]. split; [split; by eexists|].
      intros id' Hne. by rewrite lookup_insert_ne.
    + rewrite (update_status_missing _ _ _ _ _ _ Hd). cbn [fst snd].
      split; [done|]. split; done.
  - done.
Qed.

(** * The test double of tests/conftest.py *)

(** ** Dicts in insertion order *)

Lemma dict_get_list_to_map {V} k (d : list (string * V)) :
  dict_get k d = (list_to_map d : gmap string V) !! k.
Proof.
  induction d as [|[k' v] d IH]; [done|].
  cbn [dict_get]. rewrite list_to_map_cons, lookup_insert.
  by destruct (decide (k' = k)).
Qed.

Lemma list_to_map_dict_set {V} k (v : V) (d : list (string * V)) :
  (list_to_map (dict_set k v d) : gmap string V) = <[k := v]> (list_to_map d).
Proof.
  induction d as [|[k' v'] d IH]; [done|].
  cbn [dict_set]. destruct (decide (k' = k)) as [-> | Hne].
  - by rewrite !list_to_map_cons, insert_insert_eq.
  - rewrite !list_to_map_cons, IH. by apply insert_insert_ne.
Qed.

Lemma dict_get_set {V} k (v : V) (d : list (string * V)) k' :
  dict_get k' (dict_set k v d) = if decide (k' = k) then Some v else dict_get k' d.
Proof.
  rewrite !dict_get_list_to_map, list_to_map_dict_set, lookup_insert.
  by destruct (decide (k = k')), (decide (k' = k)).
Qed.

(** ** Listing in the test double *)

Lemma fake_list_unfold f (limit : Z) st :
  0 ≤ limit →
  FakeRepo.list f limit st
  = take (Z.to_nat limit) (sort_created_desc (with_status st f.(FakeRepo.executions).*2)).
Proof.
  intros Hl. unfold FakeRepo.list, py_slice_to, slice_index.
  assert ((limit <? 0) = false) as -> by (apply Z.ltb_ge; lia).
  assert (with_status st f.(FakeRepo.executions).*2
          = match st with
            | Some st0 => filter (λ x, status_is st0 x = true) f.(FakeRepo.executions).*2
            | None => f.(FakeRepo.executions).*2
            end) as <-.
  { destruct st as [st0|]; [|done]. cbn [with_status]. apply list_filter_iff.
    intros r. unfold status_is. by rewrite bool_decide_eq_true. }
  set (sorted := sort_created_desc _). unfold len.
  destruct (Z_le_gt_dec limit (Z.of_nat (length sorted))).
  - by rewrite Z.min_l.
  - rewrite Z.min_r, Nat2Z.id by lia. rewrite !take_ge; [done | lia | lia].
Qed.

(** X21. The test double lists differently from the repository: it filters
    first and cuts afterwards. For a limit [>= 0], [_FakeRepo.list] returns
    [min(limit, number of records with the status)] records, ordered by
    [created_at] descending, each a stored record with the status asked for,
    and no stored record with that status that is left out is newer than a
    returned one. *)
Theorem fake_list_filters_then_limits (f : FakeRepo.t) (limit : Z)
    (st : option ExecutionStatus) :
  0 ≤ limit →
  let matching := with_status st f.(FakeRepo.executions).*2 in
  len (FakeRepo.list f limit st) = Z.min limit (len matching)
  ∧ StronglySorted (λ a b, created_at b ≤ created_at a) (FakeRepo.list f limit st)
  ∧ (∀ r, r ∈ FakeRepo.list f limit st → r ∈ matching)
  ∧ (∀ r r', r ∈ FakeRepo.list f limit st → r' ∈ matching →
             r' ∉ FakeRepo.list f limit st → created_at r' ≤ created_at r).
Proof.
  intros Hl. cbv zeta. rewrite fake_list_unfold by done.
  set (matching := with_status st _).
  pose proof (sort_created_desc_sorted matching) as Hsorted.
  pose proof (sort_created_desc_perm matching) as Hperm.
  rewrite <- (take_drop (Z.to_nat limit) (sort_created_desc matching)) in Hsorted.
  split; [|split; [|split]].
  - unfold len. rewrite length_take, Hperm. lia.
  - by apply StronglySorted_app_1_l in Hsorted.
  - intros r Hr. rewrite <- Hperm. by eapply subseteq_take.
  - intros r r' Hr Hr' Hout.
    rewrite <- Hperm, <- (take_drop (Z.to_nat limit)), elem_of_app in Hr'.
    destruct Hr' as [? | Hr']; [done|].
    apply (StronglySorted_app_1_elem_of _ _ _ r r' Hsorted Hr Hr').
Qed.

Lemma fake_list_filters_then_limits_witness :
  0 ≤ 1
  ∧ len (FakeRepo.list
           {| FakeRepo.executions :=
                [("e1", completed_record "e1" 1 4); ("e2", completed_record "e2" 2 5)];
              FakeRepo.logs := ∅ |} 1 (Some COMPLETED))
    = Z.min 1 (len (with_status (Some COMPLETED)
                      [completed_record "e1" 1 4; completed_record "e2" 2 5])).
Proof.
  assert (H : 0 ≤ 1) by lia.
  split; [exact H|].
  exact (proj1 (fake_list_filters_then_limits
                  {| FakeRepo.executions :=
                       [("e1", completed_record "e1" 1 4); ("e2", completed_record "e2" 2 5)];
                     FakeRepo.logs := ∅ |} 1 (Some COMPLETED) H)).
Defined.

(** ** The test double against the repository *)

Lemma tallies_unique totals totals' total count :
  tallies totals total count → tallies totals' total count → totals = totals'.
Proof.
  intros [Ht Hs Hk] [Ht' Hs' Hk']. apply map_eq. intros k.
  destruct (totals !! k) as [n|] eqn:Hn.
  - destruct (Hk k) as [-> | [st ->]]; [by eexists | |]; congruence.
  - destruct (totals' !! k) as [n'|] eqn:Hn'; [|done].
    destruct (Hk' k) as [-> | [st ->]]; [by eexists | |]; congruence.
Qed.

(** X22. On the same records and buffers the test double does what the
    repository does, for any creation order: [get], [read_logs],
    [append_logs] and [update_status] give the same results and the same
    following state, and [stats] gives the same table when the dict holds
    each key once. *)
Theorem fake_agrees_with_repository (f : FakeRepo.t) (order : list string) (id : string) :
  FakeRepo.get f id = get_execution (as_repo f order) id
  ∧ (∀ offset limit,
       FakeRepo.read_logs f id offset limit = read_logs (as_repo f order) id offset limit)
  ∧ (∀ lines,
       as_repo (FakeRepo.append_logs f id lines) order
       = append_logs (as_repo f order) id lines)
  ∧ (∀ now st res err,
       (as_repo (FakeRepo.update_status now f id st res err).1 order,
        (FakeRepo.update_status now f id st res err).2)
       = update_status now (as_repo f order) id st res err)
  ∧ (NoDup f.(FakeRepo.executions).*1 → FakeRepo.stats f = stats (as_repo f order)).
Proof.
  split; [apply dict_get_list_to_map|]. split; [|split; [|split]].
  - intros offset limit. unfold FakeRepo.read_logs, read_logs, as_repo.
    cbn [_logs _executions]. by rewrite dict_get_list_to_map.
  - intros lines. unfold FakeRepo.append_logs, append_logs, as_repo, setdefault.
    cbn [_logs _executions _created_order FakeRepo.executions FakeRepo.logs].
    by destruct (FakeRepo.logs f !! id).
  - intros now st res err. unfold FakeRepo.update_status, update_status, as_repo.
    cbn [_logs _executions _created_order]. rewrite dict_get_list_to_map.
    destruct (list_to_map (FakeRepo.executions f) !! id) as [d|]; [|done].
    cbn [fst snd FakeRepo.executions FakeRepo.logs]. by rewrite list_to_map_dict_set.
  - intros Hnodup.
    apply (tallies_unique _ _ (len f.(FakeRepo.executions))
             (λ st, Z.of_nat (length (filter (λ d, status d = st) f.(FakeRepo.executions).*2)))).
    + apply (tallies_foldl _ _ _ _ (tallies_initial _)).
    + pose proof (map_to_list_to_map f.(FakeRepo.executions) Hnodup) as Hperm.
      assert (Hsize : Z.of_nat (size (_executions (as_repo f order)))
                      = len f.(FakeRepo.executions)).
      { unfold len, as_repo. cbn [_executions]. by rewrite <- length_map_to_list, Hperm. }
      rewrite <- Hsize.
      eapply tallies_ext; [|apply stats_tallies].
      intros st. unfold count_status, as_repo. cbn [_executions].
      by rewrite Hperm.
Qed.

Lemma dict_set_keys {V} k (v : V) (d : list (string * V)) :
  (dict_set k v d).*1 = if decide (k ∈ d.*1) then d.*1 else d.*1 ++ [k].
Proof.
  induction d as [|[k' v'] d IH]; [done|].
  cbn [dict_set fmap list_fmap fst]. destruct (decide (k' = k)) as [-> | Hne].
  - rewrite decide_True by left. done.
  - cbn [fmap list_fmap fst]. rewrite IH.
    destruct (decide (k ∈ d.*1)) as [Hin | Hout].
    + rewrite decide_True by (by right). done.
    + rewrite decide_False; [done|]. intros [? | ?]%elem_of_cons; congruence.
Qed.

Lemma dict_set_NoDup {V} k (v : V) (d : list (string * V)) :
  NoDup d.*1 → NoDup (dict_set k v d).*1.
Proof.
  intros Hd. rewrite dict_set_keys. destruct (decide (k ∈ d.*1)); [done|].
  apply NoDup_app. split; [done|]. split; [|apply NoDup_singleton].
  intros x Hx ->%list_elem_of_singleton. done.
Qed.

(** ** The service of the test double *)

(** X23. [FakeExecutionService.logs] is where an unknown id is told apart:
    for an offset [>= 0] and a limit [>= 1] it answers as the documented
    [readLogs] contract does on the same records and buffers, [None] for an
    id without a record (also when lines are stored under the id) and
    otherwise the lines, next offset and eof of [read_logs], under the id
    asked for. *)
Theorem fake_service_logs_documented (f : FakeRepo.t) (order : list string) (id : string)
    (offset limit : Z) :
  0 ≤ offset → 1 ≤ limit →
  (λ r, (r.(LogsResponse.lines), r.(LogsResponse.next_offset), r.(LogsResponse.eof)))
    <$> FakeExecutionService.logs f id offset limit
  = readLogs_documented (as_repo f order) id offset limit
  ∧ (FakeExecutionService.logs f id offset limit = None ↔ FakeRepo.get f id = None)
  ∧ (∀ r, FakeExecutionService.logs f id offset limit = Some r →
          r.(LogsResponse.execution_id) = id).
Proof.
  intros Ho Hl. unfold FakeExecutionService.logs, FakeRepo.get.
  assert (Hread : FakeRepo.read_logs f id offset limit = read_logs (as_repo f order) id offset limit).
  { unfold FakeRepo.read_logs, read_logs, as_repo.
    cbn [_logs _executions]. by rewrite dict_get_list_to_map. }
  rewrite Hread, dict_get_list_to_map.
  destruct (list_to_map (FakeRepo.executions f) !! id) as [d|] eqn:Hd.
  - rewrite (read_logs_refines_documented (as_repo f order) id d) by done.
    destruct (read_logs (as_repo f order) id offset limit) as [[lines next_offset] eof].
    cbn. split; [done|]. split; [done|]. by intros r [= <-].
  - unfold readLogs_documented, as_repo. cbn [_executions]. by rewrite Hd.
Qed.

Lemma fake_service_logs_documented_witness :
  0 ≤ 0 ∧ 1 ≤ 10
  ∧ FakeExecutionService.logs (FakeRepo.append_logs FakeRepo.init "ghost" ["l1"]) "ghost" 0 10
    = None.
Proof.
  assert (H1 : 0 ≤ 0) by lia. assert (H2 : 1 ≤ 10) by lia.
  split; [exact H1|]. split; [exact H2|].
  exact (proj2 (proj1 (proj2 (fake_service_logs_documented
                                (FakeRepo.append_logs FakeRepo.init "ghost" ["l1"])
                                [] "ghost" 0 10 H1 H2))) eq_refl).
Defined.

Lemma dict_set_twice {V} k (v1 v2 : V) (d : list (string * V)) :
  dict_set k v2 (dict_set k v1 d) = dict_set k v2 d.
Proof.
  induction d as [|[k' v'] d IH]; cbn [dict_set].
  - by rewrite decide_True.
  - destruct (decide (k' = k)) as [-> | Hne]; cbn [dict_set].
    + by rewrite decide_True.
    + by rewrite decide_False, IH.
Qed.

Lemma fake_update_status_found now f id d st res err :
  dict_get id f.(FakeRepo.executions) = Some d →
  FakeRepo.update_status now f id st res err
  = ({| FakeRepo.executions := dict_set id (updated_record now d st res err) f.(FakeRepo.executions);
        FakeRepo.logs := f.(FakeRepo.logs) |},
     Some (updated_record now d st res err)).
Proof. intros Hd. unfold FakeRepo.update_status. by rewrite Hd. Qed.

Lemma fake_append_logs_unfold f id lines :
  FakeRepo.append_logs f id lines
  = {| FakeRepo.executions := f.(FakeRepo.executions);
       FakeRepo.logs := <[id := default [] (f.(FakeRepo.logs) !! id) ++ lines]> f.(FakeRepo.logs) |}.
Proof.
  unfold FakeRepo.append_logs, setdefault.
  destruct (FakeRepo.logs f !! id) as [old|] eqn:Hold.
  - by rewrite Hold.
  - by rewrite lookup_insert_eq, insert_insert_eq.
Qed.

(** What [submit] leaves behind, in one step. *)
Lemma fake_submit_unfold eid (t1 t2 t3 t4 : Z) f payload :
  FakeExecutionService.submit eid t1 t2 t3 t4 f payload
  = ({| FakeRepo.executions :=
          dict_set eid
            {| execution_id := eid; status := COMPLETED;
               environment := payload.(ExecutionRequest.environment);
               created_at := t1; updated_at := t4;
               correlation_id := payload.(ExecutionRequest.correlation_id);
               git := payload.(ExecutionRequest.git);
               entrypoint := payload.(ExecutionRequest.entrypoint);
               parameters := payload.(ExecutionRequest.parameters);
               result := Some {["ok" := JBool true]}; error := None;
               logs_pointer := Some ("mem:" +:+ eid) |}
            f.(FakeRepo.executions);
        FakeRepo.logs :=
          <[eid := ["Starting: " +:+ payload.(ExecutionRequest.entrypoint);
                    "Executing step 1"; "Executing step 2"; "Finished successfully"]]>
            f.(FakeRepo.logs) |},
     {| SubmitResponse.execution_id := eid; SubmitResponse.status := QUEUED |}).
Proof.
  unfold FakeExecutionService.submit, FakeRepo.create. cbn [execution_id].
  erewrite (fake_update_status_found t3);
    [|cbn [FakeRepo.executions]; rewrite dict_get_set; by rewrite decide_True].
  cbn [fst FakeRepo.executions FakeRepo.logs].
  rewrite !fake_append_logs_unfold. cbn [FakeRepo.executions FakeRepo.logs].
  erewrite (fake_update_status_found t4);
    [|cbn [FakeRepo.executions]; rewrite dict_get_set; by rewrite decide_True].
  cbn [fst FakeRepo.executions FakeRepo.logs].
  rewrite !dict_set_twice, !lookup_insert_eq, !insert_insert_eq. cbn [default app].
  reflexivity.
Qed.

(** X24. [FakeExecutionService.submit] runs the whole job at once. Whatever
    the store held, the response names the drawn id with status QUEUED while
    the record stored under that id is already COMPLETED, with result
    [{"ok": True}], no error, the first clock reading as [created_at] and the
    last as [updated_at]; the id's buffer holds exactly the four lines of the
    run, so [logs] from offset 0 with a limit of at least 4 returns them with
    next offset 4 and eof true; records and buffers of other ids are
    untouched. *)
Theorem fake_submit_completes (eid : string) (t1 t2 t3 t4 : Z) (f : FakeRepo.t)
    (payload : ExecutionRequest.t) :
  let '(f', resp) := FakeExecutionService.submit eid t1 t2 t3 t4 f payload in
  let run_lines :=
    ["Starting: " +:+ payload.(ExecutionRequest.entrypoint);
     "Executing step 1"; "Executing step 2"; "Finished successfully"] in
  resp = {| SubmitResponse.execution_id := eid; SubmitResponse.status := QUEUED |}
  ∧ (∃ d, FakeExecutionService.get f' eid = Some d
          ∧ execution_id d = eid ∧ status d = COMPLETED
          ∧ result d = Some {["ok" := JBool true]} ∧ error d = None
          ∧ created_at d = t1 ∧ updated_at d = t4
          ∧ git d = payload.(ExecutionRequest.git)
          ∧ entrypoint d = payload.(ExecutionRequest.entrypoint)
          ∧ parameters d = payload.(ExecutionRequest.parameters)
          ∧ environment d = payload.(ExecutionRequest.environment)
          ∧ correlation_id d = payload.(ExecutionRequest.correlation_id))
  ∧ (∀ limit, 4 ≤ limit →
       FakeExecutionService.logs f' eid 0 limit
       = Some {| LogsResponse.execution_id := eid; LogsResponse.lines := run_lines;
                 LogsResponse.next_offset := 4; LogsResponse.eof := true |})
  ∧ (∀ id', id' ≠ eid →
       FakeExecutionService.get f' id' = FakeExecutionService.get f id'
       ∧ f'.(FakeRepo.logs) !! id' = f.(FakeRepo.logs) !! id').
Proof.
  rewrite fake_submit_unfold. cbv zeta.
  unfold FakeExecutionService.get, FakeExecutionService.logs, FakeRepo.get, FakeRepo.read_logs.
  cbn [FakeRepo.executions FakeRepo.logs].
  split; [done|]. split; [|split].
  - eexists. rewrite dict_get_set, decide_True by done. by repeat split.
  - intros limit Hlimit.
    rewrite dict_get_set, decide_True, lookup_insert_eq by done.
    cbn [default status is_terminal]. cbv zeta.
    set (run_lines := [_; _; _; _]). change (id run_lines) with run_lines.
    assert (Hlen : len run_lines = 4) by done.
    rewrite (py_slice_window run_lines 0 limit) by lia.
    rewrite Hlen, Z.min_l by lia. cbn [andb Z.leb Z.compare Pos.compare Pos.compare_cont].
    rewrite drop_0, take_ge; [done|]. unfold len in Hlen. lia.
  - intros id' Hne. rewrite dict_get_set, decide_False by done.
    by rewrite lookup_insert_ne.
Qed.

(** ** Reading with a negative offset *)

(** X25. The repository does not reject a negative offset: [lines[offset:end]]
    then counts the start from the end of the buffer. With [offset < 0] and
    a limit that reaches the end ([offset + limit >= len(buffer)]),
    [read_logs] returns the last [-offset] lines of the buffer, the whole
    buffer when it is shorter, and [len(buffer)] as next offset. *)
Theorem read_logs_negative_offset (s : Repo) (id : string) (offset limit : Z) :
  offset < 0 → len (buffer_of s id) ≤ offset + limit →
  read_logs s id offset limit
  = (drop (Z.to_nat (len (buffer_of s id) + offset)) (buffer_of s id),
     len (buffer_of s id),
     terminal_at s id).
Proof.
  intros Hneg Hreach. unfold read_logs, terminal_at. fold (buffer_of s id).
  set (buffer := buffer_of s id) in *. unfold len in *.
  rewrite Z.min_l by lia. rewrite Z.leb_refl, andb_true_r.
  do 2 f_equal. unfold py_slice, slice_index, len.
  assert ((offset <? 0) = true) as -> by (apply Z.ltb_lt; lia).
  assert ((Z.of_nat (length buffer) <? 0) = false) as -> by (apply Z.ltb_ge; lia).
  rewrite Z.min_id.
  replace (Z.to_nat (Z.max (offset + Z.of_nat (length buffer)) 0))
    with (Z.to_nat (Z.of_nat (length buffer) + offset)) by lia.
  apply take_ge. rewrite length_drop. lia.
Qed.

Lemma read_logs_negative_offset_witness :
  -1 < 0 ∧ len (buffer_of scenario_a "e1") ≤ -1 + 200
  ∧ read_logs scenario_a "e1" (-1) 200 = (["line3"], 3, false).
Proof.
  assert (H1 : -1 < 0) by lia.
  assert (H2 : len (buffer_of scenario_a "e1") ≤ -1 + 200) by (vm_compute; discriminate).
  split; [exact H1|]. split; [exact H2|].
  exact (read_logs_negative_offset scenario_a "e1" (-1) 200 H1 H2).
Defined.
